(** * toxyl/semver: a shallow embedding of [main.go] and its properties

    The Go package parses, formats, compares and sorts relaxed semantic
    version identifiers.  Go strings are byte sequences and are modelled as
    lists of [ascii]; Go's [int] is modelled as [Z] (the package performs no
    arithmetic on the components, so no wrap-around is ever needed, and the
    64-bit range only matters for [strconv.Atoi]); [*Version] pointers are
    indices into an explicit heap. *)

From Stdlib Require Import ZArith Ascii String List Bool Lia Permutation Sorted.
From stdpp Require Import base list sorting.
Import ListNotations.

Local Open Scope Z_scope.
Local Open Scope list_scope.

(** ** Strings *)

Abbreviation str := (list ascii).

(** Go string literal. *)
Definition lit (s : string) : str := list_ascii_of_string s.

Definition isDigit (c : ascii) : bool :=
  let n := nat_of_ascii c in (48 <=? n)%nat && (n <=? 57)%nat.

Definition is_char (a c : ascii) : bool := Ascii.eqb a c.

(** The regexp atom [.] without the [s] flag: any byte but line feed. *)
Definition notNewline (c : ascii) : bool := negb (Ascii.eqb c "010"%char).

(** ** Regular expressions with Go's leftmost-first submatch semantics

    [regexp/syntax] simplifies [x+] to [xx*], [x{0,1}] to [x?] and
    [x{0,2}] to [(?:x(?:x)?)?] before compiling; the derived forms below are
    those rewritings.  Alternation prefers its left branch and repetition is
    greedy, which the continuation-passing matcher renders by trying the
    preferred branch first and falling back only when the rest of the
    pattern fails. *)

Inductive regex : Type :=
| Eps
| Chr (p : ascii -> bool)
| Cat (r1 r2 : regex)
| Alt (r1 r2 : regex)
| Star (r : regex)
| Cap (n : nat) (r : regex).

Definition Quest (r : regex) : regex := Alt r Eps.
Definition Plus (r : regex) : regex := Cat r (Star r).
Definition Rep02 (r : regex) : regex := Quest (Cat r (Quest r)).

(** The submatch vector: index 0 is the whole match, index [n] the text of
    group [n]. *)
Abbreviation captures := (list str).

Abbreviation cont := (str -> captures -> option captures).

(** The loop of a starred expression [body]: greedily one more iteration,
    then the rest of the pattern [k]; an iteration that consumes nothing is
    abandoned, so [length s] rounds of [fuel] always suffice. *)
Fixpoint starLoop (body : str -> captures -> cont -> option captures)
  (k : cont) (fuel : nat) (s : str) (caps : captures) : option captures :=
  match fuel with
  | O => k s caps
  | S fuel' =>
      match body s caps
              (fun s1 c1 =>
                 if (length s1 <? length s)%nat
                 then starLoop body k fuel' s1 c1 else None) with
      | Some c => Some c
      | None => k s caps
      end
  end.

(** [rmatch r s caps k] matches [r] at the head of [s] and hands the
    remaining input and the submatches recorded so far to [k]. *)
Fixpoint rmatch (r : regex) (s : str) (caps : captures) (k : cont)
  {struct r} : option captures :=
  match r with
  | Eps => k s caps
  | Chr p =>
      match s with
      | c :: s' => if p c then k s' caps else None
      | [] => None
      end
  | Cat r1 r2 => rmatch r1 s caps (fun s1 c1 => rmatch r2 s1 c1 k)
  | Alt r1 r2 =>
      match rmatch r1 s caps k with
      | Some c => Some c
      | None => rmatch r2 s caps k
      end
  | Star r0 => starLoop (rmatch r0) k (length s) s caps
  | Cap n r0 =>
      rmatch r0 s caps
        (fun s1 c1 => k s1 (<[n := take (length s - length s1) s]> c1))
  end.

Definition numSubexp : nat := 2.

Definition matchHere (re : regex) (s : str) : option captures :=
  rmatch (Cap 0 re) s (replicate (S numSubexp) []) (fun _ c => Some c).

(** [Regexp.FindStringSubmatch]: the leftmost match, [nil] when there is
    none. *)
Fixpoint FindStringSubmatch (re : regex) (s : str) : captures :=
  match matchHere re s with
  | Some c => c
  | None =>
      match s with
      | [] => []
      | _ :: s' => FindStringSubmatch re s'
      end
  end.

(** The package-level pattern [reSemVer].  Its source text reads, piece by
    piece: [(?:v|V|)], then group 1 [((?:\d+\.){0,2}\d+)], then [-{0,1}],
    then group 2, a greedy run of [.] atoms.  It is not anchored. *)
Definition reDigits : regex := Plus (Chr isDigit).
Definition reGroup : regex := Cat reDigits (Chr (is_char ".")).
Definition reNums : regex := Cat (Rep02 reGroup) reDigits.
Definition reTail : regex :=
  Cat (Quest (Chr (is_char "-"))) (Cap 2 (Star (Chr notNewline))).
Definition reSemVer : regex :=
  Cat (Alt (Chr (is_char "v")) (Alt (Chr (is_char "V")) Eps))
      (Cat (Cap 1 reNums) reTail).

(** ** Library functions the package calls *)

(** [strings.Split(s, sep)] for a one-byte separator. *)
Fixpoint Split (s : str) (sep : ascii) : list str :=
  match s with
  | [] => [[]]
  | c :: s' =>
      if Ascii.eqb c sep then [] :: Split s' sep
      else match Split s' sep with
           | [] => [[c]]
           | w :: ws => (c :: w) :: ws
           end
  end.

(** [strings.Join(elems, sep)]. *)
Fixpoint Join (elems : list str) (sep : str) : str :=
  match elems with
  | [] => []
  | [e] => e
  | e :: es => e ++ sep ++ Join es sep
  end.

(** Go's [int] on the 64-bit platforms. *)
Definition maxInt : Z := 2 ^ 63 - 1.
Definition minInt : Z := - 2 ^ 63.

Definition digitVal (c : ascii) : Z := Z.of_nat (nat_of_ascii c) - 48.

(** The digit loop shared by both paths of [strconv.Atoi]:
    [n = n*10 + int(ch - '0')], a syntax error on any other byte. *)
Fixpoint parseDigits (s : str) (n : Z) : option Z :=
  match s with
  | [] => Some n
  | c :: s' => if isDigit c then parseDigits s' (n * 10 + digitVal c) else None
  end.

(** [strconv.Atoi]: an optional sign, then one or more decimal digits, and
    the value must fit [int].  [None] stands for a non-nil [*NumError]
    (syntax or range); the package never looks at the value returned with
    it. *)
Definition Atoi (s : str) : option Z :=
  let '(neg, body) :=
    match s with
    | c :: t =>
        if Ascii.eqb c "-" then (true, t)
        else if Ascii.eqb c "+" then (false, t) else (false, s)
    | [] => (false, s)
    end in
  match body with
  | [] => None
  | _ =>
      match parseDigits body 0 with
      | None => None
      | Some un =>
          if neg then (if - un <? minInt then None else Some (- un))
          else (if maxInt <? un then None else Some un)
      end
  end.

Definition digitChar (d : Z) : ascii := ascii_of_nat (48 + Z.to_nat d).

(** The decimal digits of a non-negative number, written from the least
    significant end as [strconv.formatBits] does. *)
Fixpoint formatBits (fuel : nat) (n : Z) (acc : str) : str :=
  let acc' := digitChar (n mod 10) :: acc in
  match fuel with
  | O => acc'
  | S fuel' => if n <? 10 then acc' else formatBits fuel' (n / 10) acc'
  end.

(** The verb [%d] of [fmt.Sprintf]. *)
Definition fmt_d (n : Z) : str :=
  if n <? 0 then "-"%char :: formatBits (Z.to_nat (Z.log2 (- n))) (- n) []
  else formatBits (Z.to_nat (Z.log2 n)) n [].

(** [fmt.Errorf(format, arg)] with a single trailing [%s]; an [error] is
    its message. *)
Abbreviation error := str.
Definition Errorf (prefix : string) (arg : str) : error := lit prefix ++ arg.

(** ** The data model *)

Record Version : Type := mkVersion {
  major : Z;
  minor : Z;
  patch : Z;
  suffix : str
}.

(** A [*Version] is an index into the heap; an index outside it is a nil
    or dangling pointer, and dereferencing it panics. *)
Abbreviation loc := nat.
Abbreviation heap := (list Version).

(** Computations over the heap; [None] is a panic. *)
Definition M (A : Type) : Type := heap -> option (A * heap).

Definition ret {A} (a : A) : M A := fun h => Some (a, h).

Definition bind {A B} (m : M A) (f : A -> M B) : M B :=
  fun h => match m h with
           | Some (a, h') => f a h'
           | None => None
           end.

Notation "x <- c1 ;; c2" := (bind c1 (fun x => c2))
  (at level 100, c1 at next level, right associativity).

(** [&Version{...}] *)
Definition alloc (x : Version) : M loc := fun h => Some (length h, h ++ [x]).

(** A read through the pointer. *)
Definition load (v : loc) : M Version :=
  fun h => match h !! v with
           | Some x => Some (x, h)
           | None => None
           end.

(** An assignment to a field through the pointer. *)
Definition modify (v : loc) (f : Version -> Version) : M unit :=
  fun h => match h !! v with
           | Some x => Some (tt, <[v := f x]> h)
           | None => None
           end.

(** ** The methods of [main.go] *)

Definition SetMajor (v : loc) (version : Z) : M loc :=
  _ <- modify v (fun x => mkVersion version (minor x) (patch x) (suffix x)) ;;
  ret v.

Definition SetMinor (v : loc) (version : Z) : M loc :=
  _ <- modify v (fun x => mkVersion (major x) version (patch x) (suffix x)) ;;
  ret v.

Definition SetPatch (v : loc) (version : Z) : M loc :=
  _ <- modify v (fun x => mkVersion (major x) (minor x) version (suffix x)) ;;
  ret v.

Definition set_suffix (s : str) (x : Version) : Version :=
  mkVersion (major x) (minor x) (patch x) s.

Definition SetSuffix (v : loc) (elements : list str) : M loc :=
  _ <- modify v (set_suffix []) ;;
  _ <- (if (0 <? length elements)%nat
        then modify v (set_suffix (Join elements (lit ".")))
        else ret tt) ;;
  ret v.

(** The method [Set] ([Set] is reserved in Rocq). *)
Definition Set_ (v : loc) (major minor patch : Z) (suffixes : list str) : M loc :=
  v1 <- SetMajor v major ;;
  v2 <- SetMinor v1 minor ;;
  v3 <- SetPatch v2 patch ;;
  SetSuffix v3 suffixes.

Definition NewVersion : M loc := alloc (mkVersion 0 0 0 []).

Definition NewVersionFromString (s : str) : M (loc * option error) :=
  version <- alloc (mkVersion 0 0 0 []) ;;
  let matches := FindStringSubmatch reSemVer s in
  if negb (length matches =? 3)%nat then
    ret (version, Some (Errorf "invalid version format: " s))
  else
  let versionNumbers := Split (nth 1 matches []) "." in
  if (length versionNumbers <? 1)%nat || (3 <? length versionNumbers)%nat then
    ret (version, Some (Errorf "invalid version format: " s))
  else
  match Atoi (nth 0 versionNumbers []) with
  | None =>
      ret (version,
           Some (Errorf "invalid major version: " (nth 0 versionNumbers [])))
  | Some major =>
  _ <- SetMajor version major ;;
  err <- (if (2 <=? length versionNumbers)%nat then
            match Atoi (nth 1 versionNumbers []) with
            | None =>
                ret (Some (Errorf "invalid minor version: "
                                  (nth 1 versionNumbers [])))
            | Some minor => _ <- SetMinor version minor ;; ret None
            end
          else ret None) ;;
  match err with
  | Some e => ret (version, Some e)
  | None =>
  err <- (if (length versionNumbers =? 3)%nat then
            match Atoi (nth 2 versionNumbers []) with
            | None =>
                ret (Some (Errorf "invalid patch version: "
                                  (nth 2 versionNumbers [])))
            | Some patch => _ <- SetPatch version patch ;; ret None
            end
          else ret None) ;;
  match err with
  | Some e => ret (version, Some e)
  | None =>
  _ <- SetSuffix version [nth 2 matches []] ;;
  ret (version, None)
  end end end.

Definition SetFromString (v : loc) (s : str) : M loc :=
  r <- NewVersionFromString s ;;
  let '(version, err) := r in
  match err with
  | Some _ => ret v
  | None => ret version
  end.

(** The body of [String], on the value behind the receiver. *)
Definition format (x : Version) : str :=
  let s :=
    if (minor x =? 0) && (patch x =? 0) then
      lit "v" ++ fmt_d (major x)
    else if patch x =? 0 then
      lit "v" ++ fmt_d (major x) ++ lit "." ++ fmt_d (minor x)
    else
      lit "v" ++ fmt_d (major x) ++ lit "." ++ fmt_d (minor x)
              ++ lit "." ++ fmt_d (patch x) in
  match suffix x with
  | [] => s
  | _ => s ++ lit "-" ++ suffix x
  end.

Definition String (v : loc) : M str :=
  x <- load v ;; ret (format x).

Definition IsValidVersionString (version : str) : M bool :=
  r <- NewVersionFromString version ;;
  let '(_, err) := r in
  ret (match err with None => true | Some _ => false end).

(** ** Sorting *)

(** Go's string [<]: bytewise lexicographic, a proper prefix first. *)
Fixpoint str_lt (a b : str) : bool :=
  match a, b with
  | _, [] => false
  | [], _ :: _ => true
  | x :: a', y :: b' =>
      if (nat_of_ascii x <? nat_of_ascii y)%nat then true
      else if (nat_of_ascii y <? nat_of_ascii x)%nat then false
      else str_lt a' b'
  end.

(** The body of the closure handed to [sort.Slice]. *)
Definition less (a b : Version) : bool :=
  if negb (major a =? major b) then major a <? major b
  else if negb (minor a =? minor b) then minor a <? minor b
  else if negb (patch a =? patch b) then patch a <? patch b
  else str_lt (suffix a) (suffix b).

(** The closure itself: it reads both elements through their pointers. *)
Definition lessAt (h : heap) (i j : loc) : option bool :=
  match h !! i, h !! j with
  | Some a, Some b => Some (less a b)
  | _, _ => None
  end.

Section SortSlice.
Context {A : Type} (lessf : A -> A -> option bool).

(** The inner loop of [insertionSortLessFunc]: [x] moves left past every
    element it is less than.  [before] holds the elements to its left,
    nearest first. *)
Fixpoint insertLeft (x : A) (before : list A) : option (list A) :=
  match before with
  | [] => Some [x]
  | y :: before' =>
      match lessf x y with
      | None => None
      | Some true =>
          match insertLeft x before' with
          | Some r => Some (y :: r)
          | None => None
          end
      | Some false => Some (x :: y :: before')
      end
  end.

(** The outer loop: the sorted part grows by one element a time. *)
Fixpoint insertionSort (before todo : list A) : option (list A) :=
  match todo with
  | [] => Some (rev before)
  | x :: todo' =>
      match insertLeft x before with
      | Some before' => insertionSort before' todo'
      | None => None
      end
  end.

(** [sort.Slice] belongs to the standard library.  It is modelled by the
    insertion sort the library itself runs on slices of at most twelve
    elements ([insertionSortLessFunc]); on longer slices the library turns
    to a pattern-defeating quicksort with the same contract: the slice is
    permuted into an order sorted by [less], with no promise of stability.
    A [less] that panics makes the sort panic. *)
Definition sort_Slice (data : list A) : option (list A) :=
  insertionSort [] data.
End SortSlice.

Definition SortVersions (versions : list loc) : M (list loc) :=
  fun h => match sort_Slice (lessAt h) versions with
           | Some sorted => Some (sorted, h)
           | None => None
           end.

(** * Specification-level definitions

    The functions below are not in [main.go]: they state what its code
    computes and are related to it by the lemmas that follow. *)

(** The longest prefix of [s] made of bytes of the class [p], and what
    follows it. *)
Fixpoint takeP (p : ascii -> bool) (s : str) : str :=
  match s with
  | c :: s' => if p c then c :: takeP p s' else []
  | [] => []
  end.

Fixpoint dropP (p : ascii -> bool) (s : str) : str :=
  match s with
  | c :: s' => if p c then dropP p s' else s
  | [] => []
  end.

(** One more group: a dot and at least one digit. *)
Definition dotDigits (r : str) : option (str * str) :=
  match r with
  | c :: r' =>
      if is_char "." c then
        match takeP isDigit r' with
        | [] => None
        | d => Some (d, dropP isDigit r')
        end
      else None
  | [] => None
  end.

(** The numeric run at the head of [t]: one to three groups of digits, as
    many as there are, and the input behind them. *)
Definition numRun (t : str) : option (list str * str) :=
  match takeP isDigit t with
  | [] => None
  | d1 =>
      let r1 := dropP isDigit t in
      match dotDigits r1 with
      | None => Some ([d1], r1)
      | Some (d2, r2) =>
          match dotDigits r2 with
          | None => Some ([d1; d2], r2)
          | Some (d3, r3) => Some ([d1; d2; d3], r3)
          end
      end
  end.

(** The optional leading "v" or "V". *)
Definition stripV (s : str) : str :=
  match s with
  | c :: t => if is_char "v" c || is_char "V" c then t else s
  | [] => s
  end.

(** The optional hyphen behind the numeric run. *)
Definition stripHyphen (s : str) : str :=
  match s with
  | c :: t => if is_char "-" c then t else s
  | [] => s
  end.

(** Group 2: what follows the hyphen, up to the end of the line. *)
Definition suffixOf (rest : str) : str := takeP notNewline (stripHyphen rest).

(** The greedy loop over a byte class, as a recursion on the input. *)
Fixpoint starSpec (p : ascii -> bool) (k : cont) (s : str) (caps : captures)
  : option captures :=
  match s with
  | c :: s' =>
      if p c then
        match starSpec p k s' caps with
        | Some r => Some r
        | None => k s caps
        end
      else k s caps
  | [] => k [] caps
  end.

(** What one attempt of the pattern at the head of [s] returns. *)
Definition matchAt (s : str) : option captures :=
  match numRun (stripV s) with
  | None => None
  | Some (pieces, rest) =>
      Some [take (length s - length (dropP notNewline (stripHyphen rest))) s;
            Join pieces (lit ".");
            suffixOf rest]
  end.

(** The leftmost position at which the pattern matches: the numeric groups
    found there and the input that follows them. *)
Fixpoint scan (s : str) : option (list str * str) :=
  match numRun (stripV s) with
  | Some r => Some r
  | None =>
      match s with
      | [] => None
      | _ :: s' => scan s'
      end
  end.

(** A non-empty string of decimal digits. *)
Definition digitStr (d : str) : Prop := d <> [] /\ forallb isDigit d = true.

Definition zeroVersion : Version := mkVersion 0 0 0 [].

(** The Version and the error of [NewVersionFromString], read off [scan]:
    the numbers go through [Atoi] one after the other, each stored before
    the next is converted, and the suffix is stored last. *)
Definition parse (s : str) : Version * option error :=
  match scan s with
  | None => (zeroVersion, Some (Errorf "invalid version format: " s))
  | Some ([], _) => (zeroVersion, Some (Errorf "invalid version format: " s))
  | Some (d1 :: ps, rest) =>
      match Atoi d1 with
      | None => (zeroVersion, Some (Errorf "invalid major version: " d1))
      | Some a =>
          match ps with
          | [] => (mkVersion a 0 0 (suffixOf rest), None)
          | d2 :: ps' =>
              match Atoi d2 with
              | None =>
                  (mkVersion a 0 0 [], Some (Errorf "invalid minor version: " d2))
              | Some b =>
                  match ps' with
                  | [] => (mkVersion a b 0 (suffixOf rest), None)
                  | d3 :: _ =>
                      match Atoi d3 with
                      | None =>
                          (mkVersion a b 0 [],
                           Some (Errorf "invalid patch version: " d3))
                      | Some c => (mkVersion a b c (suffixOf rest), None)
                      end
                  end
              end
          end
      end
  end.

(** What [format] puts after the numbers: nothing, or a hyphen and the
    suffix. *)
Definition hyphenated (suf : str) : str :=
  match suf with
  | [] => []
  | _ => lit "-" ++ suf
  end.

(** [a] does not come after [b]. *)
Definition leq (a b : Version) : bool := negb (less b a).

(** Not negative, and an [int]. *)
Definition inRange (n : Z) : Prop := 0 <= n <= maxInt.

(** A computation started on the empty heap. *)
Definition run {A} (m : M A) : option A :=
  match m [] with
  | Some (a, _) => Some a
  | None => None
  end.

Definition lineFeed : ascii := "010"%char.

(** The Version behind a pointer known to be valid. *)
Definition deref (h : heap) (p : loc) : Version := default zeroVersion (h !! p).

(** * Properties *)

(** ** What the pattern matches

    The matcher run on [reSemVer] computes what the direct scanner
    [matchAt] computes, and the leftmost search what [scan] finds. *)

Lemma takeP_dropP p s : takeP p s ++ dropP p s = s.
Proof.
  induction s as [|c s IH]; simpl; [reflexivity|].
  destruct (p c); simpl; [now rewrite IH | reflexivity].
Qed.

Lemma takeP_all p s : forallb p (takeP p s) = true.
Proof.
  induction s as [|c s IH]; simpl; [reflexivity|].
  destruct (p c) eqn:E; simpl; [now rewrite E | reflexivity].
Qed.

Lemma dropP_head p s c t : dropP p s = c :: t -> p c = false.
Proof.
  induction s as [|x s IH]; simpl; [discriminate|].
  destruct (p x) eqn:E; [exact IH|]. intros [= <- _]. exact E.
Qed.

Lemma take_consumed (a b : str) :
  take (length (a ++ b) - length b) (a ++ b) = a.
Proof.
  rewrite length_app. replace (length a + length b - length b)%nat
    with (length a) by lia.
  now rewrite take_app_length.
Qed.

Lemma starLoop_Chr p k fuel s caps :
  (length s <= fuel)%nat ->
  starLoop (rmatch (Chr p)) k fuel s caps = starSpec p k s caps.
Proof.
  revert s. induction fuel as [|fuel IH]; intros s Hlen.
  - destruct s; [reflexivity | simpl in Hlen; lia].
  - destruct s as [|c s]; simpl; [reflexivity|].
    destruct (p c); [|reflexivity].
    replace (length s <? S (length s))%nat with true
      by (symmetry; apply Nat.ltb_lt; lia).
    rewrite IH by (simpl in Hlen; lia). reflexivity.
Qed.

Lemma rmatch_Star_Chr p k s caps :
  rmatch (Star (Chr p)) s caps k = starSpec p k s caps.
Proof. simpl. now apply starLoop_Chr. Qed.

(** When the rest of the pattern accepts after the longest run, that is the
    match the loop returns. *)
Lemma starSpec_greedy p k s caps r :
  k (dropP p s) caps = Some r -> starSpec p k s caps = Some r.
Proof.
  induction s as [|c s IH]; simpl; [auto|].
  destruct (p c); [|auto]. intros H. now rewrite (IH H).
Qed.

(** When the rest of the pattern rejects every input that still starts with
    a byte of the class, only the longest run is a candidate. *)
Lemma starSpec_longest p k s caps :
  (forall c t cs, p c = true -> k (c :: t) cs = None) ->
  starSpec p k s caps = k (dropP p s) caps.
Proof.
  intros Hk. induction s as [|c s IH]; simpl; [reflexivity|].
  destruct (p c) eqn:E; [|reflexivity].
  rewrite IH. destruct (k (dropP p s) caps); [reflexivity|].
  now apply Hk.
Qed.

Lemma rmatch_Plus_Chr p k s caps :
  rmatch (Plus (Chr p)) s caps k =
  match s with
  | c :: s' => if p c then starSpec p k s' caps else None
  | [] => None
  end.
Proof.
  destruct s as [|c s]; simpl; [reflexivity|].
  destruct (p c); [|reflexivity]. now apply starLoop_Chr.
Qed.

Lemma rmatch_Plus_longest p k s caps :
  (forall c t cs, p c = true -> k (c :: t) cs = None) ->
  rmatch (Plus (Chr p)) s caps k =
  match takeP p s with
  | [] => None
  | _ => k (dropP p s) caps
  end.
Proof.
  intros Hk. rewrite rmatch_Plus_Chr. destruct s as [|c s]; simpl; [reflexivity|].
  destruct (p c); [|reflexivity]. now apply starSpec_longest.
Qed.

Lemma rmatch_Plus_greedy p k s caps :
  (forall t cs, k t cs <> None) ->
  rmatch (Plus (Chr p)) s caps k =
  match takeP p s with
  | [] => None
  | _ => k (dropP p s) caps
  end.
Proof.
  intros Hk. rewrite rmatch_Plus_Chr. destruct s as [|c s]; simpl; [reflexivity|].
  destruct (p c); [|reflexivity].
  destruct (k (dropP p s) caps) as [r|] eqn:E; [|now apply Hk in E].
  now apply starSpec_greedy.
Qed.

Lemma is_char_eq a c : is_char a c = true -> c = a.
Proof. unfold is_char. intros H. apply Ascii.eqb_eq in H. now subst. Qed.

Lemma digit_not_dot c : isDigit c = true -> is_char "." c = false.
Proof.
  intros H. destruct (is_char "." c) eqn:E; [|reflexivity].
  apply is_char_eq in E. subst. discriminate.
Qed.

Lemma rmatch_reGroup k s caps :
  rmatch reGroup s caps k =
  match takeP isDigit s with
  | [] => None
  | _ =>
      match dropP isDigit s with
      | c :: r => if is_char "." c then k r caps else None
      | [] => None
      end
  end.
Proof.
  unfold reGroup, reDigits.
  change (rmatch (Cat ?a ?b) s caps k)
    with (rmatch a s caps (fun s1 c1 => rmatch b s1 c1 k)).
  rewrite rmatch_Plus_longest; [reflexivity|].
  intros c t cs Hc. cbn [rmatch]. now rewrite digit_not_dot.
Qed.


(** The numeric run, against a rest of the pattern [k] that cannot fail. *)
Lemma rmatch_reNums k s caps :
  (forall t cs, k t cs <> None) ->
  rmatch reNums s caps k =
  match numRun s with
  | None => None
  | Some (_, rest) => k rest caps
  end.
Proof.
  intros Hk. unfold reNums, Rep02, Quest.
  cbn [rmatch]. rewrite !rmatch_reGroup.
  unfold reDigits. rewrite (rmatch_Plus_greedy isDigit k s) by exact Hk.
  unfold numRun.
  destruct (takeP isDigit s) as [|x d1] eqn:E1; [reflexivity|].
  destruct (dropP isDigit s) as [|c r1] eqn:F1; [reflexivity|].
  unfold dotDigits at 1.
  destruct (is_char "." c); [|reflexivity].
  rewrite rmatch_reGroup, (rmatch_Plus_greedy isDigit k r1) by exact Hk.
  destruct (takeP isDigit r1) as [|y d2] eqn:E2; [reflexivity|].
  unfold dotDigits.
  destruct (dropP isDigit r1) as [|c' r2] eqn:F2.
  { destruct (k [] caps) eqn:K; [reflexivity | now apply Hk in K]. }
  destruct (is_char "." c').
  - rewrite (rmatch_Plus_greedy isDigit k r2) by exact Hk.
    destruct (takeP isDigit r2) as [|z d3] eqn:E3.
    + destruct (k (c' :: r2) caps) eqn:K; [reflexivity | now apply Hk in K].
    + destruct (k (dropP isDigit r2) caps) eqn:K; [reflexivity | now apply Hk in K].
  - destruct (k (c' :: r2) caps) eqn:K; [reflexivity | now apply Hk in K].
Qed.

Lemma take_dropP p (s : str) :
  take (length s - length (dropP p s)) s = takeP p s.
Proof.
  rewrite <- (takeP_dropP p s) at 1 3. apply take_consumed.
Qed.

Lemma rmatch_Cap n r k s caps :
  rmatch (Cap n r) s caps k =
  rmatch r s caps (fun s1 c1 => k s1 (<[n := take (length s - length s1) s]> c1)).
Proof. reflexivity. Qed.

Lemma rmatch_Cat r1 r2 k s caps :
  rmatch (Cat r1 r2) s caps k = rmatch r1 s caps (fun s1 c1 => rmatch r2 s1 c1 k).
Proof. reflexivity. Qed.

Lemma rmatch_Alt r1 r2 k s caps :
  rmatch (Alt r1 r2) s caps k =
  match rmatch r1 s caps k with
  | Some c => Some c
  | None => rmatch r2 s caps k
  end.
Proof. reflexivity. Qed.

(** The optional hyphen and the rest of the line. *)
Lemma rmatch_reTail k s caps :
  (forall t cs, k t cs <> None) ->
  rmatch reTail s caps k =
  k (dropP notNewline (stripHyphen s)) (<[2%nat := suffixOf s]> caps).
Proof.
  intros Hk. unfold reTail, Quest.
  assert (Hcap : forall t cs,
    rmatch (Cap 2 (Star (Chr notNewline))) t cs k =
    k (dropP notNewline t) (<[2%nat := takeP notNewline t]> cs)).
  { intros t cs. rewrite rmatch_Cap, rmatch_Star_Chr.
    destruct (k (dropP notNewline t) (<[2%nat := takeP notNewline t]> cs))
      as [r|] eqn:K; [|now apply Hk in K].
    apply starSpec_greedy. now rewrite take_dropP. }
  rewrite rmatch_Cat, rmatch_Alt. cbn [rmatch].
  unfold suffixOf, stripHyphen.
  destruct s as [|c s].
  - apply Hcap.
  - destruct (is_char "-" c).
    + fold (rmatch (Cap 2 (Star (Chr notNewline))) s caps k).
      rewrite Hcap.
      destruct (k (dropP notNewline s) (<[2%nat := takeP notNewline s]> caps))
        eqn:K; [reflexivity | now apply Hk in K].
    + apply Hcap.
Qed.

Lemma dotDigits_app r d r' :
  dotDigits r = Some (d, r') -> r = lit "." ++ d ++ r'.
Proof.
  unfold dotDigits. destruct r as [|c r0]; [discriminate|].
  destruct (is_char "." c) eqn:E; [|discriminate].
  apply is_char_eq in E. subst c.
  destruct (takeP isDigit r0) eqn:T; [discriminate|].
  intros [= <- <-]. rewrite <- T. simpl. f_equal. symmetry. apply takeP_dropP.
Qed.

Lemma numRun_app t pieces rest :
  numRun t = Some (pieces, rest) -> t = Join pieces (lit ".") ++ rest.
Proof.
  unfold numRun. destruct (takeP isDigit t) as [|x d1] eqn:T; [discriminate|].
  pose proof (takeP_dropP isDigit t) as Ht. rewrite T in Ht.
  destruct (dotDigits (dropP isDigit t)) as [[d2 r2]|] eqn:D2.
  - apply dotDigits_app in D2. rewrite D2 in Ht.
    destruct (dotDigits r2) as [[d3 r3]|] eqn:D3.
    + apply dotDigits_app in D3. subst r2. intros [= <- <-].
      etransitivity; [symmetry; exact Ht|].
      cbn [Join]. now rewrite <- !app_assoc.
    + intros [= <- <-]. etransitivity; [symmetry; exact Ht|].
      cbn [Join]. now rewrite <- !app_assoc.
  - intros [= <- <-]. symmetry. exact Ht.
Qed.

Lemma numRun_nondigit c t : isDigit c = false -> numRun (c :: t) = None.
Proof. intros H. unfold numRun. simpl. now rewrite H. Qed.

Lemma rmatch_body (k : cont) t caps :
  (forall u cs, k u cs <> None) ->
  rmatch (Cat (Cap 1 reNums) reTail) t caps k =
  match numRun t with
  | None => None
  | Some (pieces, rest) =>
      k (dropP notNewline (stripHyphen rest))
        (<[2%nat := suffixOf rest]> (<[1%nat := Join pieces (lit ".")]> caps))
  end.
Proof.
  intros Hk. rewrite rmatch_Cat, rmatch_Cap, rmatch_reNums.
  - destruct (numRun t) as [[pieces rest]|] eqn:N; [|reflexivity].
    rewrite rmatch_reTail by exact Hk.
    apply numRun_app in N. subst t. now rewrite take_consumed.
  - intros u cs. rewrite rmatch_reTail by exact Hk. apply Hk.
Qed.

Lemma rmatch_Chr p k s caps :
  rmatch (Chr p) s caps k =
  match s with
  | c :: s' => if p c then k s' caps else None
  | [] => None
  end.
Proof. reflexivity. Qed.

Lemma rmatch_Eps k s caps : rmatch Eps s caps k = k s caps.
Proof. reflexivity. Qed.

Lemma matchHere_reSemVer s : matchHere reSemVer s = matchAt s.
Proof.
  unfold matchHere, matchAt, reSemVer.
  set (B := Cat (Cap 1 reNums) reTail).
  rewrite rmatch_Cap, rmatch_Cat, !rmatch_Alt, !rmatch_Chr, rmatch_Eps.
  set (k := fun (s1 : str) (c1 : captures) =>
              Some (<[0%nat := take (length s - length s1) s]> c1)).
  assert (Hk : forall u cs, k u cs <> None) by (intros; discriminate).
  assert (HB : forall t,
    rmatch B t (replicate (S numSubexp) []) k =
    match numRun t with
    | None => None
    | Some (pieces, rest) =>
        Some [take (length s - length (dropP notNewline (stripHyphen rest))) s;
              Join pieces (lit "."); suffixOf rest]
    end).
  { intros t. subst B. rewrite rmatch_body by exact Hk.
    destruct (numRun t) as [[pieces rest]|]; reflexivity. }
  destruct s as [|c t]; [apply HB|].
  unfold stripV.
  destruct (is_char "v" c) eqn:Ev.
  { apply is_char_eq in Ev. subst c. cbn [orb].
    change (is_char "V" "v") with false. cbv iota.
    rewrite HB. destruct (numRun t) as [[pieces rest]|]; [reflexivity|].
    rewrite HB. now rewrite numRun_nondigit. }
  destruct (is_char "V" c) eqn:EV.
  { apply is_char_eq in EV. subst c. cbn [orb].
    rewrite HB. destruct (numRun t) as [[pieces rest]|]; [reflexivity|].
    rewrite HB. now rewrite numRun_nondigit. }
  cbn [orb]. apply HB.
Qed.

Lemma FindStringSubmatch_scan s :
  match scan s with
  | None => FindStringSubmatch reSemVer s = []
  | Some (pieces, rest) =>
      exists whole,
        FindStringSubmatch reSemVer s =
        [whole; Join pieces (lit "."); suffixOf rest]
  end.
Proof.
  induction s as [|c s IH]; cbn [FindStringSubmatch scan];
    rewrite matchHere_reSemVer; unfold matchAt.
  - destruct (numRun (stripV [])) as [[pieces rest]|]; eauto.
  - destruct (numRun (stripV (c :: s))) as [[pieces rest]|]; eauto.
Qed.

Lemma takeP_digitStr t x d : takeP isDigit t = x :: d -> digitStr (x :: d).
Proof.
  intros H. split; [discriminate|]. rewrite <- H. apply takeP_all.
Qed.

Lemma dotDigits_digitStr r d r' : dotDigits r = Some (d, r') -> digitStr d.
Proof.
  unfold dotDigits. destruct r as [|c r0]; [discriminate|].
  destruct (is_char "." c); [|discriminate].
  destruct (takeP isDigit r0) as [|x d0] eqn:T; [discriminate|].
  intros [= <- _]. eapply takeP_digitStr, T.
Qed.

Lemma numRun_pieces t pieces rest :
  numRun t = Some (pieces, rest) ->
  Forall digitStr pieces /\ (1 <= length pieces <= 3)%nat.
Proof.
  unfold numRun. destruct (takeP isDigit t) as [|x d1] eqn:T; [discriminate|].
  apply takeP_digitStr in T.
  destruct (dotDigits (dropP isDigit t)) as [[d2 r2]|] eqn:D2.
  - apply dotDigits_digitStr in D2.
    destruct (dotDigits r2) as [[d3 r3]|] eqn:D3.
    + apply dotDigits_digitStr in D3. intros [= <- <-].
      split; [repeat (constructor; [assumption|]); constructor | simpl; lia].
    + intros [= <- <-]. split; [repeat (constructor; [assumption|]); constructor | simpl; lia].
  - intros [= <- <-]. split; [repeat (constructor; [assumption|]); constructor | simpl; lia].
Qed.

Lemma scan_pieces s pieces rest :
  scan s = Some (pieces, rest) ->
  Forall digitStr pieces /\ (1 <= length pieces <= 3)%nat.
Proof.
  induction s as [|c s IH]; cbn [scan].
  - destruct (numRun (stripV [])) eqn:N; [|discriminate].
    intros [= ->]. eapply numRun_pieces, N.
  - destruct (numRun (stripV (c :: s))) eqn:N; [|exact IH].
    intros [= ->]. eapply numRun_pieces, N.
Qed.

(** [Split] undoes [Join] on dot-free pieces. *)
Lemma Split_nodot d :
  forallb isDigit d = true -> Split d "." = [d].
Proof.
  induction d as [|c d IH]; simpl; [reflexivity|].
  intros H. apply andb_true_iff in H as [Hc Hd].
  fold (is_char "." c). rewrite Ascii.eqb_sym. fold (is_char "." c).
  rewrite (digit_not_dot c Hc), (IH Hd). reflexivity.
Qed.

Lemma Split_app_dot d rest :
  forallb isDigit d = true ->
  Split (d ++ lit "." ++ rest) "." = d :: Split rest ".".
Proof.
  induction d as [|c d IH]; simpl; [reflexivity|].
  intros H. apply andb_true_iff in H as [Hc Hd].
  rewrite Ascii.eqb_sym. fold (is_char "." c).
  rewrite (digit_not_dot c Hc). cbn [lit list_ascii_of_string app] in IH.
  now rewrite (IH Hd).
Qed.

Lemma Split_Join pieces :
  pieces <> [] -> Forall digitStr pieces ->
  Split (Join pieces (lit ".")) "." = pieces.
Proof.
  induction pieces as [|d ps IH]; [congruence|]. intros _ H.
  inversion H as [|? ? [_ Hd] Hps]; subst.
  destruct ps as [|d' ps'].
  - cbn [Join]. now apply Split_nodot.
  - change (Join (d :: d' :: ps') (lit "."))
      with (d ++ lit "." ++ Join (d' :: ps') (lit ".")).
    rewrite Split_app_dot by exact Hd. f_equal. now apply IH.
Qed.

(** ** The heap operations *)

Lemma modify_valid v f h x :
  h !! v = Some x -> modify v f h = Some (tt, <[v := f x]> h).
Proof. unfold modify. now intros ->. Qed.

Lemma lookup_last (h : heap) x : (h ++ [x]) !! length h = Some x.
Proof. rewrite lookup_app_r by lia. now rewrite Nat.sub_diag. Qed.

Lemma insert_last (h : heap) x y : <[length h := y]> (h ++ [x]) = h ++ [y].
Proof. rewrite insert_app_r_alt by lia. now rewrite Nat.sub_diag. Qed.

Lemma modify_last f (h : heap) x :
  modify (length h) f (h ++ [x]) = Some (tt, h ++ [f x]).
Proof.
  rewrite (modify_valid _ _ _ x) by apply lookup_last. now rewrite insert_last.
Qed.

Lemma SetMajor_valid v n h x :
  h !! v = Some x ->
  SetMajor v n h = Some (v, <[v := mkVersion n (minor x) (patch x) (suffix x)]> h).
Proof. intros H. unfold SetMajor, bind. now rewrite (modify_valid _ _ _ x H). Qed.

Lemma SetMinor_valid v n h x :
  h !! v = Some x ->
  SetMinor v n h = Some (v, <[v := mkVersion (major x) n (patch x) (suffix x)]> h).
Proof. intros H. unfold SetMinor, bind. now rewrite (modify_valid _ _ _ x H). Qed.

Lemma SetPatch_valid v n h x :
  h !! v = Some x ->
  SetPatch v n h = Some (v, <[v := mkVersion (major x) (minor x) n (suffix x)]> h).
Proof. intros H. unfold SetPatch, bind. now rewrite (modify_valid _ _ _ x H). Qed.

Lemma SetSuffix_valid v elements h x :
  h !! v = Some x ->
  SetSuffix v elements h =
  Some (v, <[v := set_suffix (Join elements (lit ".")) x]> h).
Proof.
  intros H. unfold SetSuffix, bind. rewrite (modify_valid _ _ _ x H).
  assert (Hv : (v < length h)%nat) by (eapply lookup_lt_Some, H).
  destruct elements as [|e es]; cbn [length Nat.ltb Nat.leb].
  - reflexivity.
  - rewrite (modify_valid _ _ _ (set_suffix [] x))
      by (now apply list_lookup_insert_eq).
    unfold ret. now rewrite list_insert_insert_eq.
Qed.

(** ** What the parser returns

    [NewVersionFromString] allocates one Version and returns a pointer to
    it; the Version and the error are those of [parse], on every input and
    heap. *)

Lemma SetMajor_last n (h : heap) x :
  SetMajor (length h) n (h ++ [x]) =
  Some (length h, h ++ [mkVersion n (minor x) (patch x) (suffix x)]).
Proof.
  rewrite (SetMajor_valid _ _ _ x) by apply lookup_last. now rewrite insert_last.
Qed.

Lemma SetMinor_last n (h : heap) x :
  SetMinor (length h) n (h ++ [x]) =
  Some (length h, h ++ [mkVersion (major x) n (patch x) (suffix x)]).
Proof.
  rewrite (SetMinor_valid _ _ _ x) by apply lookup_last. now rewrite insert_last.
Qed.

Lemma SetPatch_last n (h : heap) x :
  SetPatch (length h) n (h ++ [x]) =
  Some (length h, h ++ [mkVersion (major x) (minor x) n (suffix x)]).
Proof.
  rewrite (SetPatch_valid _ _ _ x) by apply lookup_last. now rewrite insert_last.
Qed.

Lemma SetSuffix_last elements (h : heap) x :
  SetSuffix (length h) elements (h ++ [x]) =
  Some (length h, h ++ [set_suffix (Join elements (lit ".")) x]).
Proof.
  rewrite (SetSuffix_valid _ _ _ x) by apply lookup_last. now rewrite insert_last.
Qed.

Lemma NewVersionFromString_parse s h :
  NewVersionFromString s h =
  Some ((length h, snd (parse s)), h ++ [fst (parse s)]).
Proof.
  unfold NewVersionFromString, parse, bind at 1, alloc.
  pose proof (FindStringSubmatch_scan s) as Hfind.
  destruct (scan s) as [[pieces rest]|] eqn:Hscan.
  2:{ rewrite Hfind. reflexivity. }
  destruct Hfind as [whole ->].
  destruct (scan_pieces _ _ _ Hscan) as [Hdig Hlen].
  cbn [length Nat.eqb negb nth].
  assert (Hne : pieces <> [])
    by (destruct pieces; [simpl in Hlen; lia | discriminate]).
  rewrite Split_Join by assumption.
  destruct pieces as [|d1 [|d2 [|d3 [|d4 ps]]]]; cbn [length] in Hlen; try lia;
    cbn [length Nat.ltb Nat.leb Nat.eqb orb nth].
  - destruct (Atoi d1) as [a|]; [|reflexivity].
    unfold bind, ret. rewrite SetMajor_last, SetSuffix_last. reflexivity.
  - destruct (Atoi d1) as [a|]; [|reflexivity].
    unfold bind at 1. rewrite SetMajor_last.
    unfold bind at 1. destruct (Atoi d2) as [b|]; [|reflexivity].
    unfold bind, ret. rewrite SetMinor_last, SetSuffix_last. reflexivity.
  - destruct (Atoi d1) as [a|]; [|reflexivity].
    unfold bind at 1. rewrite SetMajor_last.
    unfold bind at 1. destruct (Atoi d2) as [b|]; [|reflexivity].
    unfold bind at 1. rewrite SetMinor_last. unfold ret at 1.
    unfold bind at 1. destruct (Atoi d3) as [c|]; [|reflexivity].
    unfold bind, ret. rewrite SetPatch_last, SetSuffix_last. reflexivity.
Qed.

(** ** Decimal conversion *)

Lemma digit_cases m : 0 <= m < 10 ->
  m = 0 \/ m = 1 \/ m = 2 \/ m = 3 \/ m = 4 \/
  m = 5 \/ m = 6 \/ m = 7 \/ m = 8 \/ m = 9.
Proof. lia. Qed.

Lemma isDigit_digitChar m : 0 <= m < 10 -> isDigit (digitChar m) = true.
Proof.
  intros H. destruct (digit_cases m H) as [-> | [-> | [-> | [-> | [-> |
    [-> | [-> | [-> | [-> | ->]]]]]]]]]; reflexivity.
Qed.

Lemma digitVal_digitChar m : 0 <= m < 10 -> digitVal (digitChar m) = m.
Proof.
  intros H. destruct (digit_cases m H) as [-> | [-> | [-> | [-> | [-> |
    [-> | [-> | [-> | [-> | ->]]]]]]]]]; reflexivity.
Qed.

Lemma digitVal_nonneg c : isDigit c = true -> 0 <= digitVal c <= 9.
Proof.
  unfold isDigit, digitVal. intros H. apply andb_true_iff in H as [H1 H2].
  apply Nat.leb_le in H1, H2. lia.
Qed.

Lemma formatBits_acc fuel n acc :
  formatBits fuel n acc = formatBits fuel n [] ++ acc.
Proof.
  revert n acc. induction fuel as [|fuel IH]; intros n acc; cbn [formatBits].
  - reflexivity.
  - destruct (n <? 10); [reflexivity|].
    rewrite (IH _ (_ :: acc)), (IH _ [_]). now rewrite <- app_assoc.
Qed.

Lemma formatBits_digits fuel n :
  0 <= n -> digitStr (formatBits fuel n []).
Proof.
  revert n. induction fuel as [|fuel IH]; intros n Hn; cbn [formatBits].
  - split; [discriminate|]. cbn [forallb].
    rewrite isDigit_digitChar; [reflexivity | apply Z.mod_pos_bound; lia].
  - assert (Hd : isDigit (digitChar (n mod 10)) = true)
      by (apply isDigit_digitChar, Z.mod_pos_bound; lia).
    destruct (n <? 10).
    + split; [discriminate|]. cbn [forallb]. now rewrite Hd.
    + rewrite formatBits_acc.
      destruct (IH (n / 10)) as [Hne Hall]; [apply Z.div_pos; lia|].
      split.
      * intros E. apply app_eq_nil in E as [E _]. contradiction.
      * rewrite forallb_app, Hall. cbn [forallb]. now rewrite Hd.
Qed.

Lemma parseDigits_app l1 l2 a :
  parseDigits (l1 ++ l2) a =
  match parseDigits l1 a with
  | Some b => parseDigits l2 b
  | None => None
  end.
Proof.
  revert a. induction l1 as [|c l1 IH]; intros a; cbn [parseDigits app].
  - reflexivity.
  - destruct (isDigit c); [apply IH | reflexivity].
Qed.

Lemma parseDigits_formatBits fuel n :
  0 <= n < 2 ^ (Z.of_nat fuel + 1) ->
  parseDigits (formatBits fuel n []) 0 = Some n.
Proof.
  revert n. induction fuel as [|fuel IH]; intros n Hn; cbn [formatBits].
  - change (2 ^ (Z.of_nat 0 + 1)) with 2 in Hn.
    cbn [parseDigits]. rewrite isDigit_digitChar by (apply Z.mod_pos_bound; lia).
    rewrite digitVal_digitChar by (apply Z.mod_pos_bound; lia).
    f_equal. rewrite Z.mod_small; lia.
  - assert (Hm : 0 <= n mod 10 < 10) by (apply Z.mod_pos_bound; lia).
    destruct (n <? 10) eqn:E.
    + apply Z.ltb_lt in E. cbn [parseDigits].
      rewrite isDigit_digitChar, digitVal_digitChar by exact Hm.
      f_equal. rewrite Z.mod_small; lia.
    + apply Z.ltb_ge in E. rewrite formatBits_acc, parseDigits_app.
      rewrite IH.
      * cbn [parseDigits].
        rewrite isDigit_digitChar, digitVal_digitChar by exact Hm.
        f_equal. pose proof (Z.div_mod n 10). lia.
      * split; [apply Z.div_pos; lia|].
        apply Z.div_lt_upper_bound; [lia|].
        replace (Z.of_nat (S fuel) + 1) with (Z.succ (Z.of_nat fuel + 1)) in Hn by lia.
        rewrite Z.pow_succ_r in Hn by lia. lia.
Qed.

Lemma log2_fuel n : 0 <= n -> n < 2 ^ (Z.of_nat (Z.to_nat (Z.log2 n)) + 1).
Proof.
  intros Hn. rewrite Z2Nat.id by apply Z.log2_nonneg.
  destruct (Z.eq_dec n 0) as [->|Hnz]; [reflexivity|].
  replace (Z.log2 n + 1) with (Z.succ (Z.log2 n)) by lia.
  apply Z.log2_spec. lia.
Qed.

Lemma fmt_d_nonneg n : 0 <= n -> fmt_d n = formatBits (Z.to_nat (Z.log2 n)) n [].
Proof.
  intros Hn. unfold fmt_d. destruct (n <? 0) eqn:E; [|reflexivity].
  apply Z.ltb_lt in E. lia.
Qed.

Lemma fmt_d_digitStr n : 0 <= n -> digitStr (fmt_d n).
Proof. intros Hn. rewrite fmt_d_nonneg by exact Hn. now apply formatBits_digits. Qed.

Lemma parseDigits_fmt_d n : 0 <= n -> parseDigits (fmt_d n) 0 = Some n.
Proof.
  intros Hn. rewrite fmt_d_nonneg by exact Hn.
  apply parseDigits_formatBits. split; [exact Hn | now apply log2_fuel].
Qed.

(** On a digit string [Atoi] has no sign to strip: it is the digit loop
    and the range check. *)
Lemma Atoi_digitStr d :
  digitStr d ->
  Atoi d = match parseDigits d 0 with
           | Some un => if maxInt <? un then None else Some un
           | None => None
           end.
Proof.
  intros [Hne Hall]. destruct d as [|c d]; [congruence|].
  cbn [forallb] in Hall. apply andb_true_iff in Hall as [Hc Hd].
  unfold Atoi.
  destruct (Ascii.eqb c "-") eqn:E1.
  { apply Ascii.eqb_eq in E1. subst c. discriminate. }
  destruct (Ascii.eqb c "+") eqn:E2.
  { apply Ascii.eqb_eq in E2. subst c. discriminate. }
  reflexivity.
Qed.

Lemma parseDigits_lower d a n :
  0 <= a -> parseDigits d a = Some n -> a <= n.
Proof.
  revert a. induction d as [|c d IH]; intros a Ha; cbn [parseDigits].
  - intros [= <-]. lia.
  - destruct (isDigit c) eqn:E; [|discriminate].
    pose proof (digitVal_nonneg c E) as Hv. intros H.
    apply IH in H; lia.
Qed.

Lemma Atoi_digitStr_range d n :
  digitStr d -> Atoi d = Some n -> 0 <= n <= maxInt.
Proof.
  intros Hd. rewrite (Atoi_digitStr d Hd).
  destruct (parseDigits d 0) as [un|] eqn:P; [|discriminate].
  destruct (maxInt <? un) eqn:E; [discriminate|].
  intros [= <-]. apply Z.ltb_ge in E.
  apply parseDigits_lower in P; lia.
Qed.

Lemma Atoi_fmt_d n : 0 <= n <= maxInt -> Atoi (fmt_d n) = Some n.
Proof.
  intros [H0 Hmax]. rewrite Atoi_digitStr by now apply fmt_d_digitStr.
  rewrite parseDigits_fmt_d by exact H0.
  destruct (maxInt <? n) eqn:E; [|reflexivity]. apply Z.ltb_lt in E. lia.
Qed.

(** ** Scanning a formatted version *)

Lemma takeP_app p d rest :
  forallb p d = true ->
  match rest with c :: _ => p c = false | [] => True end ->
  takeP p (d ++ rest) = d /\ dropP p (d ++ rest) = rest.
Proof.
  intros Hd Hrest. induction d as [|c d IH]; cbn [app].
  - destruct rest as [|c t]; cbn [takeP dropP]; [auto|]. now rewrite Hrest.
  - cbn [forallb] in Hd. apply andb_true_iff in Hd as [Hc Hd].
    cbn [takeP dropP]. rewrite Hc. destruct (IH Hd) as [-> ->]. auto.
Qed.

Lemma hyphenated_head suf :
  match hyphenated suf with c :: _ => isDigit c = false | [] => True end.
Proof. destruct suf; simpl; auto. Qed.

Lemma dotDigits_hyphenated suf : dotDigits (hyphenated suf) = None.
Proof. destruct suf; reflexivity. Qed.

Lemma suffixOf_hyphenated suf :
  forallb notNewline suf = true -> suffixOf (hyphenated suf) = suf.
Proof.
  intros H. destruct suf as [|c suf]; [reflexivity|].
  unfold suffixOf. cbn [hyphenated lit list_ascii_of_string app stripHyphen].
  change (is_char "-" "-") with true. cbv iota.
  destruct (takeP_app notNewline (c :: suf) [] H I) as [E _].
  now rewrite app_nil_r in E.
Qed.

Lemma dotDigits_dot d rest :
  digitStr d ->
  match rest with c :: _ => isDigit c = false | [] => True end ->
  dotDigits (lit "." ++ d ++ rest) = Some (d, rest).
Proof.
  intros [Hne Hall] Hrest. cbn [lit list_ascii_of_string app dotDigits].
  change (is_char "." ".") with true. cbv iota.
  destruct (takeP_app isDigit d rest Hall Hrest) as [-> ->].
  destruct d; [congruence | reflexivity].
Qed.

Lemma numRun_one d1 suf :
  digitStr d1 -> numRun (d1 ++ hyphenated suf) = Some ([d1], hyphenated suf).
Proof.
  intros [Hne Hall]. unfold numRun.
  destruct (takeP_app isDigit d1 _ Hall (hyphenated_head suf)) as [-> ->].
  rewrite dotDigits_hyphenated. destruct d1; [congruence | reflexivity].
Qed.

Lemma numRun_two d1 d2 suf :
  digitStr d1 -> digitStr d2 ->
  numRun (d1 ++ lit "." ++ d2 ++ hyphenated suf) =
  Some ([d1; d2], hyphenated suf).
Proof.
  intros [Hne Hall] H2. unfold numRun.
  destruct (takeP_app isDigit d1 (lit "." ++ d2 ++ hyphenated suf) Hall)
    as [-> ->]; [reflexivity|].
  rewrite (dotDigits_dot d2 _ H2 (hyphenated_head suf)).
  rewrite dotDigits_hyphenated. destruct d1; [congruence | reflexivity].
Qed.

Lemma numRun_three d1 d2 d3 suf :
  digitStr d1 -> digitStr d2 -> digitStr d3 ->
  numRun (d1 ++ lit "." ++ d2 ++ lit "." ++ d3 ++ hyphenated suf) =
  Some ([d1; d2; d3], hyphenated suf).
Proof.
  intros [Hne Hall] H2 H3. unfold numRun.
  destruct (takeP_app isDigit d1
              (lit "." ++ d2 ++ lit "." ++ d3 ++ hyphenated suf) Hall)
    as [-> ->]; [reflexivity|].
  rewrite (dotDigits_dot d2 (lit "." ++ d3 ++ hyphenated suf) H2)
    by reflexivity.
  rewrite (dotDigits_dot d3 _ H3 (hyphenated_head suf)).
  destruct d1; [congruence | reflexivity].
Qed.

Lemma scan_v t r : numRun t = Some r -> scan (lit "v" ++ t) = Some r.
Proof.
  intros H. cbn [lit list_ascii_of_string app scan stripV].
  change (is_char "v" "v") with true. cbn [orb]. now rewrite H.
Qed.

(** [format], with the numbers and the hyphenated suffix set apart. *)
Lemma format_eq x :
  format x =
  lit "v" ++
  (if (minor x =? 0) && (patch x =? 0) then
     fmt_d (major x) ++ hyphenated (suffix x)
   else if patch x =? 0 then
     fmt_d (major x) ++ lit "." ++ fmt_d (minor x) ++ hyphenated (suffix x)
   else
     fmt_d (major x) ++ lit "." ++ fmt_d (minor x) ++ lit "." ++
     fmt_d (patch x) ++ hyphenated (suffix x)).
Proof.
  unfold format, hyphenated.
  destruct ((minor x =? 0) && (patch x =? 0)); [|destruct (patch x =? 0)];
    destruct (suffix x); rewrite ?app_nil_r, <- ?app_assoc; reflexivity.
Qed.

(** The parser undoes the formatter: numbers in the range of [int] and not
    negative, a suffix without a line feed. *)
Lemma parse_format x :
  0 <= major x <= maxInt -> 0 <= minor x <= maxInt -> 0 <= patch x <= maxInt ->
  forallb notNewline (suffix x) = true ->
  parse (format x) = (x, None).
Proof.
  intros Ha Hb Hc Hs. destruct x as [a b c suf]. cbn [major minor patch suffix] in *.
  pose proof (fmt_d_digitStr a (proj1 Ha)) as Da.
  pose proof (fmt_d_digitStr b (proj1 Hb)) as Db.
  pose proof (fmt_d_digitStr c (proj1 Hc)) as Dc.
  unfold parse. rewrite format_eq. cbn [major minor patch suffix].
  destruct (b =? 0) eqn:Eb; destruct (c =? 0) eqn:Ec; cbn [andb];
    try apply Z.eqb_eq in Eb; try apply Z.eqb_eq in Ec; subst.
  - rewrite (scan_v _ _ (numRun_one _ suf Da)).
    rewrite Atoi_fmt_d by exact Ha. now rewrite suffixOf_hyphenated.
  - rewrite (scan_v _ _ (numRun_three _ _ _ suf Da Db Dc)).
    rewrite !Atoi_fmt_d by assumption. now rewrite suffixOf_hyphenated.
  - rewrite (scan_v _ _ (numRun_two _ _ suf Da Db)).
    rewrite !Atoi_fmt_d by assumption. now rewrite suffixOf_hyphenated.
  - rewrite (scan_v _ _ (numRun_three _ _ _ suf Da Db Dc)).
    rewrite !Atoi_fmt_d by assumption. now rewrite suffixOf_hyphenated.
Qed.

(** ** The comparison order *)

Lemma str_lt_irrefl a : str_lt a a = false.
Proof.
  induction a as [|x a IH]; cbn [str_lt]; [reflexivity|].
  now rewrite Nat.ltb_irrefl.
Qed.

Lemma nat_of_ascii_inj x y : nat_of_ascii x = nat_of_ascii y -> x = y.
Proof.
  intros H. rewrite <- (ascii_nat_embedding x), <- (ascii_nat_embedding y).
  now rewrite H.
Qed.

Lemma str_lt_asym a b : str_lt a b = true -> str_lt b a = false.
Proof.
  revert b. induction a as [|x a IH]; intros [|y b]; cbn [str_lt]; try easy.
  destruct (nat_of_ascii x <? nat_of_ascii y)%nat eqn:E1;
    destruct (nat_of_ascii y <? nat_of_ascii x)%nat eqn:E2; try easy.
  - apply Nat.ltb_lt in E1, E2. lia.
  - apply IH.
Qed.

Lemma str_lt_connex a b : str_lt a b = false -> str_lt b a = false -> a = b.
Proof.
  revert b. induction a as [|x a IH]; intros [|y b]; cbn [str_lt]; try easy.
  destruct (nat_of_ascii x <? nat_of_ascii y)%nat eqn:E1;
    destruct (nat_of_ascii y <? nat_of_ascii x)%nat eqn:E2; try easy.
  apply Nat.ltb_ge in E1, E2. intros Ha Hb.
  f_equal; [apply nat_of_ascii_inj; lia | now apply IH].
Qed.

Lemma str_lt_trans a b c :
  str_lt a b = true -> str_lt b c = true -> str_lt a c = true.
Proof.
  revert b c. induction a as [|x a IH]; intros [|y b] [|z c]; cbn [str_lt];
    try easy.
  destruct (nat_of_ascii x <? nat_of_ascii y)%nat eqn:E1.
  - apply Nat.ltb_lt in E1. intros _.
    destruct (nat_of_ascii y <? nat_of_ascii z)%nat eqn:E2.
    + apply Nat.ltb_lt in E2. intros _.
      replace (nat_of_ascii x <? nat_of_ascii z)%nat with true
        by (symmetry; apply Nat.ltb_lt; lia). reflexivity.
    + destruct (nat_of_ascii z <? nat_of_ascii y)%nat eqn:E3; [easy|].
      apply Nat.ltb_ge in E2, E3. intros _.
      replace (nat_of_ascii x <? nat_of_ascii z)%nat with true
        by (symmetry; apply Nat.ltb_lt; lia). reflexivity.
  - destruct (nat_of_ascii y <? nat_of_ascii x)%nat eqn:E1'; [easy|].
    apply Nat.ltb_ge in E1, E1'. intros Hab.
    destruct (nat_of_ascii y <? nat_of_ascii z)%nat eqn:E2.
    + apply Nat.ltb_lt in E2. intros _.
      replace (nat_of_ascii x <? nat_of_ascii z)%nat with true
        by (symmetry; apply Nat.ltb_lt; lia). reflexivity.
    + destruct (nat_of_ascii z <? nat_of_ascii y)%nat eqn:E3; [easy|].
      apply Nat.ltb_ge in E2, E3. intros Hbc.
      replace (nat_of_ascii x <? nat_of_ascii z)%nat with false
        by (symmetry; apply Nat.ltb_ge; lia).
      replace (nat_of_ascii z <? nat_of_ascii x)%nat with false
        by (symmetry; apply Nat.ltb_ge; lia).
      now apply (IH b c).
Qed.

(** [less] spelled out as a proposition. *)
Lemma less_spec a b :
  less a b = true <->
  major a < major b \/
  (major a = major b /\
   (minor a < minor b \/
    (minor a = minor b /\
     (patch a < patch b \/
      (patch a = patch b /\ str_lt (suffix a) (suffix b) = true))))).
Proof.
  unfold less.
  destruct (Z.eqb_spec (major a) (major b)) as [E1|E1]; cbn [negb].
  2:{ rewrite Z.ltb_lt. lia. }
  destruct (Z.eqb_spec (minor a) (minor b)) as [E2|E2]; cbn [negb].
  2:{ rewrite Z.ltb_lt. lia. }
  destruct (Z.eqb_spec (patch a) (patch b)) as [E3|E3]; cbn [negb].
  2:{ rewrite Z.ltb_lt. lia. }
  split; [intros H; right; split; [exact E1|]; right; split; [exact E2|];
          right; split; [exact E3 | exact H] |].
  intros [H|[_ [H|[_ [H|[_ H]]]]]]; try lia. exact H.
Qed.

Lemma less_irrefl a : less a a = false.
Proof.
  destruct (less a a) eqn:E; [|reflexivity].
  apply less_spec in E. rewrite str_lt_irrefl in E.
  destruct E as [H|[_ [H|[_ [H|[_ H]]]]]]; first [lia | discriminate].
Qed.

Lemma less_asym a b : less a b = true -> less b a = false.
Proof.
  intros H. destruct (less b a) eqn:E; [|reflexivity].
  apply less_spec in H, E.
  destruct H as [H|[H1 [H|[H2 [H|[H3 H]]]]]];
    destruct E as [E|[E1 [E|[E2 [E|[E3 E]]]]]]; try lia.
  apply str_lt_asym in H. congruence.
Qed.

Lemma less_trans a b c : less a b = true -> less b c = true -> less a c = true.
Proof.
  intros H E. apply less_spec in H, E. apply less_spec.
  destruct H as [H|[H1 [H|[H2 [H|[H3 H]]]]]];
    destruct E as [E|[E1 [E|[E2 [E|[E3 E]]]]]];
    first
      [ left; lia
      | right; split; [lia|]; left; lia
      | right; split; [lia|]; right; split; [lia|]; left; lia
      | right; split; [lia|]; right; split; [lia|]; right; split; [lia|];
        eapply str_lt_trans; eassumption ].
Qed.

Lemma less_connex a b : less a b = false -> less b a = false -> a = b.
Proof.
  intros H E.
  assert (H' : ~ (less a b = true)) by congruence.
  assert (E' : ~ (less b a = true)) by congruence.
  rewrite less_spec in H', E'.
  destruct (str_lt (suffix a) (suffix b)) eqn:S1;
    destruct (str_lt (suffix b) (suffix a)) eqn:S2.
  - apply str_lt_asym in S1. congruence.
  - exfalso. apply H'. clear H'.
    destruct (Z.lt_trichotomy (major a) (major b)) as [?|[?|?]]; [lia| |exfalso; apply E'; lia].
    destruct (Z.lt_trichotomy (minor a) (minor b)) as [?|[?|?]]; [lia| |exfalso; apply E'; lia].
    destruct (Z.lt_trichotomy (patch a) (patch b)) as [?|[?|?]]; [lia| |exfalso; apply E'; lia].
    lia.
  - exfalso. apply E'. clear E'.
    destruct (Z.lt_trichotomy (major a) (major b)) as [?|[?|?]]; [exfalso; apply H'; lia| |lia].
    destruct (Z.lt_trichotomy (minor a) (minor b)) as [?|[?|?]]; [exfalso; apply H'; lia| |lia].
    destruct (Z.lt_trichotomy (patch a) (patch b)) as [?|[?|?]]; [exfalso; apply H'; lia| |lia].
    lia.
  - apply str_lt_connex in S1; [|exact S2].
    destruct a as [a1 a2 a3 a4], b as [b1 b2 b3 b4]; cbn in *.
    assert (a1 = b1) by lia. assert (a2 = b2) by lia. assert (a3 = b3) by lia.
    congruence.
Qed.

Lemma leq_refl a : leq a a = true.
Proof. unfold leq. now rewrite less_irrefl. Qed.

Lemma leq_antisym a b : leq a b = true -> leq b a = true -> a = b.
Proof.
  unfold leq. intros H E. apply negb_true_iff in H, E. now apply less_connex.
Qed.

Lemma leq_trans a b c : leq a b = true -> leq b c = true -> leq a c = true.
Proof.
  unfold leq. intros H E. apply negb_true_iff in H, E. apply negb_true_iff.
  destruct (less c a) eqn:Hca; [|reflexivity].
  destruct (less a b) eqn:Hab.
  - rewrite (less_trans c a b Hca Hab) in E. discriminate.
  - rewrite (less_connex a b Hab H) in Hca. congruence.
Qed.

Lemma leq_total a b : leq a b = true \/ leq b a = true.
Proof.
  unfold leq. destruct (less b a) eqn:E; [right | left; reflexivity].
  now rewrite (less_asym b a E).
Qed.

(** ** Insertion sort *)

Section SortSliceFacts.
Context {A : Type} (lessf : A -> A -> option bool).
Context (lt : A -> A -> bool) (valid : A -> Prop).
Hypothesis lessf_lt : forall x y, valid x -> valid y -> lessf x y = Some (lt x y).
Hypothesis lt_asym : forall x y, lt x y = true -> lt y x = false.
Hypothesis lt_negtrans :
  forall x y z, lt y x = false -> lt z y = false -> lt z x = false.

(** The part already sorted is kept nearest-first, so from its head on
    nothing is less than what follows it. *)
Local Abbreviation notBelow := (fun a b : A => lt a b = false).
Local Abbreviation notAbove := (fun a b : A => lt b a = false).

Lemma insertLeft_sorted x before :
  valid x -> Forall valid before -> StronglySorted notBelow before ->
  exists r,
    insertLeft lessf x before = Some r /\ Permutation (x :: before) r /\
    Forall valid r /\ StronglySorted notBelow r.
Proof.
  intros Hx Hv Hs. induction before as [|y before IH]; cbn [insertLeft].
  - exists [x]. repeat split; auto. repeat constructor.
  - inversion Hv as [|? ? Hy Hv']; subst.
    inversion Hs as [|? ? Hs' Hall]; subst.
    rewrite (lessf_lt x y Hx Hy).
    destruct (lt x y) eqn:E.
    + destruct (IH Hv' Hs') as (r & -> & Hperm & Hvr & Hsr).
      exists (y :: r). repeat split.
      * rewrite <- Hperm. apply perm_swap.
      * constructor; assumption.
      * constructor; [exact Hsr|].
        rewrite <- Hperm. constructor; [now apply lt_asym | exact Hall].
    + exists (x :: y :: before). repeat split; auto.
      constructor; [exact Hs|]. constructor; [exact E|].
      rewrite List.Forall_forall in Hall |- *. intros z Hz.
      cbv beta. apply (lt_negtrans z y x); [now apply Hall | exact E].
Qed.

Lemma StronglySorted_rev before :
  StronglySorted notBelow before -> StronglySorted notAbove (rev before).
Proof.
  induction 1 as [|y before Hs IH Hall]; cbn [rev]; [constructor|].
  apply StronglySorted_app_2; [|exact IH | repeat constructor].
  intros x1 x2 H1 H2. apply list_elem_of_In in H1. apply in_rev in H1.
  apply list_elem_of_singleton in H2. subst x2.
  rewrite List.Forall_forall in Hall. now apply Hall.
Qed.

Lemma insertionSort_sorted before todo :
  Forall valid before -> Forall valid todo ->
  StronglySorted notBelow before ->
  exists r,
    insertionSort lessf before todo = Some r /\
    Permutation (rev before ++ todo) r /\ StronglySorted notAbove r.
Proof.
  revert before. induction todo as [|x todo IH]; intros before Hb Ht Hs;
    cbn [insertionSort].
  - exists (rev before). rewrite app_nil_r. repeat split; auto.
    now apply StronglySorted_rev.
  - inversion Ht as [|? ? Hx Ht']; subst.
    destruct (insertLeft_sorted x before Hx Hb Hs) as (b' & -> & Hperm & Hvb & Hsb).
    destruct (IH b' Hvb Ht' Hsb) as (r & Hr & Hp & Hsr).
    exists r. repeat split; auto.
    rewrite <- Hp, <- Hperm. cbn [rev].
    rewrite <- app_assoc. reflexivity.
Qed.

Lemma sort_Slice_sorted data :
  Forall valid data ->
  exists r,
    sort_Slice lessf data = Some r /\ Permutation data r /\
    StronglySorted notAbove r.
Proof.
  intros Hv. unfold sort_Slice.
  destruct (insertionSort_sorted [] data) as (r & Hr & Hp & Hs);
    [constructor | exact Hv | constructor |].
  exists r. auto.
Qed.
End SortSliceFacts.

Lemma StronglySorted_lookup {A} (R : A -> A -> Prop) (l : list A) i j x y :
  StronglySorted R l -> (i < j)%nat ->
  l !! i = Some x -> l !! j = Some y -> R x y.
Proof.
  intros Hs. revert i j. induction Hs as [|a l Hs IH Hall]; intros i j Hij Hi Hj.
  - discriminate.
  - destruct j as [|j]; [lia|]. destruct i as [|i]; cbn in Hi, Hj.
    + injection Hi as <-. rewrite List.Forall_forall in Hall.
      apply Hall. apply list_elem_of_In. eapply list_elem_of_lookup_2, Hj.
    + apply (IH i j); [lia | assumption | assumption].
Qed.

(** ** Consequences for the callers of the parser *)

Lemma IsValidVersionString_parse s h :
  IsValidVersionString s h =
  Some (match snd (parse s) with None => true | Some _ => false end,
        h ++ [fst (parse s)]).
Proof.
  unfold IsValidVersionString, bind. rewrite NewVersionFromString_parse.
  reflexivity.
Qed.

Lemma SetFromString_parse v s h :
  SetFromString v s h =
  Some (match snd (parse s) with None => length h | Some _ => v end,
        h ++ [fst (parse s)]).
Proof.
  unfold SetFromString, bind. rewrite NewVersionFromString_parse.
  destruct (snd (parse s)); reflexivity.
Qed.

Lemma inRange_0 : inRange 0.
Proof. unfold inRange, maxInt. lia. Qed.

(** Every component the parser stores came out of [Atoi] on a digit
    string. *)
Lemma parse_range s :
  inRange (major (fst (parse s))) /\ inRange (minor (fst (parse s))) /\
  inRange (patch (fst (parse s))).
Proof.
  pose proof inRange_0 as H0. unfold parse.
  destruct (scan s) as [[pieces rest]|] eqn:Hscan; [|cbn; auto].
  destruct (scan_pieces _ _ _ Hscan) as [Hdig _].
  destruct pieces as [|d1 ps]; [cbn; auto|].
  inversion Hdig as [|? ? Hd1 Hps]; subst.
  destruct (Atoi d1) as [a|] eqn:A1; [|cbn; auto].
  pose proof (Atoi_digitStr_range d1 a Hd1 A1) as Ra.
  destruct ps as [|d2 ps']; [cbn; auto|].
  inversion Hps as [|? ? Hd2 Hps']; subst.
  destruct (Atoi d2) as [b|] eqn:A2; [|cbn; auto].
  pose proof (Atoi_digitStr_range d2 b Hd2 A2) as Rb.
  destruct ps' as [|d3 ps'']; [cbn; auto|].
  inversion Hps' as [|? ? Hd3 _]; subst.
  destruct (Atoi d3) as [c|] eqn:A3; [|cbn; auto].
  pose proof (Atoi_digitStr_range d3 c Hd3 A3) as Rc.
  cbn; auto.
Qed.

(** A non-empty suffix is only ever stored by a parse that succeeds, and
    it is what follows the numeric run. *)
Lemma parse_suffix s :
  suffix (fst (parse s)) <> [] ->
  snd (parse s) = None /\
  exists pieces rest,
    scan s = Some (pieces, rest) /\ suffix (fst (parse s)) = suffixOf rest.
Proof.
  unfold parse.
  destruct (scan s) as [[pieces rest]|] eqn:Hscan; [|cbn; congruence].
  destruct pieces as [|d1 ps]; [cbn; congruence|].
  destruct (Atoi d1) as [a|]; [|cbn; congruence].
  destruct ps as [|d2 ps']; [cbn; eauto|].
  destruct (Atoi d2) as [b|]; [|cbn; congruence].
  destruct ps' as [|d3 ps'']; [cbn; eauto|].
  destruct (Atoi d3) as [c|]; [|cbn; congruence].
  cbn; eauto.
Qed.

Lemma stripV_app s : exists pre, s = pre ++ stripV s.
Proof.
  destruct s as [|c t]; [now exists []|]. unfold stripV.
  destruct (is_char "v" c || is_char "V" c); [now exists [c] | now exists []].
Qed.

Lemma scan_app s pieces rest :
  scan s = Some (pieces, rest) ->
  exists pre, s = pre ++ Join pieces (lit ".") ++ rest.
Proof.
  induction s as [|c s IH]; cbn [scan].
  - destruct (numRun (stripV [])) as [r|] eqn:N; [|discriminate].
    intros [= ->]. apply numRun_app in N. exists []. exact N.
  - destruct (numRun (stripV (c :: s))) as [r|] eqn:N.
    + intros [= ->]. apply numRun_app in N.
      destruct (stripV_app (c :: s)) as [pre Hpre].
      exists pre. now rewrite <- N.
    + intros H. destruct (IH H) as [pre ->]. now exists (c :: pre).
Qed.

Lemma digitStr_last d : digitStr d -> exists q c, d = q ++ [c] /\ isDigit c = true.
Proof.
  intros [Hne Hall]. destruct (exists_last Hne) as (q & c & ->).
  exists q, c. split; [reflexivity|].
  rewrite forallb_app in Hall. apply andb_true_iff in Hall as [_ Hc].
  cbn in Hc. now rewrite andb_true_r in Hc.
Qed.

Lemma Join_last pieces :
  pieces <> [] -> Forall digitStr pieces ->
  exists q c, Join pieces (lit ".") = q ++ [c] /\ isDigit c = true.
Proof.
  induction pieces as [|d ps IH]; [congruence|]. intros _ H.
  inversion H as [|? ? Hd Hps]; subst.
  destruct ps as [|d' ps'].
  - cbn [Join]. now apply digitStr_last.
  - destruct IH as (q & c & Hq & Hc); [discriminate | exact Hps |].
    exists (d ++ lit "." ++ q), c. split; [|exact Hc].
    change (Join (d :: d' :: ps') (lit "."))
      with (d ++ lit "." ++ Join (d' :: ps') (lit ".")).
    rewrite Hq. now rewrite <- !app_assoc.
Qed.

Lemma suffixOf_hyphen rest :
  hd_error (suffixOf rest) = Some "-"%char -> exists t, rest = lit "--" ++ t.
Proof.
  unfold suffixOf, stripHyphen. destruct rest as [|c t]; [discriminate|].
  destruct (is_char "-" c) eqn:E.
  - apply is_char_eq in E. subst c.
    destruct t as [|c' t']; [discriminate|]. cbn [takeP].
    destruct (notNewline c'); [|discriminate]. intros [= ->]. now exists t'.
  - cbn [takeP]. destruct (notNewline c); [|discriminate].
    intros [= ->]. discriminate.
Qed.

(** A parsed suffix starts with a hyphen only behind two hyphens that
    follow a digit. *)
Lemma parse_hyphen s :
  hd_error (suffix (fst (parse s))) = Some "-"%char ->
  snd (parse s) = None /\
  exists pre d t, isDigit d = true /\ s = pre ++ d :: lit "--" ++ t.
Proof.
  intros H.
  destruct (parse_suffix s) as (He & pieces & rest & Hscan & Hsuf).
  { intros E. rewrite E in H. discriminate. }
  split; [exact He|]. rewrite Hsuf in H.
  destruct (suffixOf_hyphen rest H) as [t ->].
  destruct (scan_pieces _ _ _ Hscan) as [Hdig Hlen].
  destruct (scan_app _ _ _ Hscan) as [pre ->].
  destruct (Join_last pieces) as (q & c & -> & Hc);
    [destruct pieces; [simpl in Hlen; lia | discriminate] | exact Hdig |].
  exists (pre ++ q), c, t. split; [exact Hc|].
  now rewrite <- !app_assoc.
Qed.

(** * The claims *)

Ltac eval_parse :=
  match goal with
  | |- context [parse ?s] =>
      let r := fresh "r" in
      set (r := parse s); vm_compute in r; subst r
  end.

(** C1: [IsValidVersionString] accepts "v1.2.3-beta" and rejects "vX", but
    it also accepts "1.2.3.4": the pattern takes "1.2.3" as the numeric run
    and leaves ".4" to the suffix, and since group 1 never holds more than
    three numbers the guard [len(versionNumbers) > 3] of the parser can
    never fire. *)
Theorem C1_fourth_group_becomes_suffix (h : heap) :
  IsValidVersionString (lit "v1.2.3-beta") h =
    Some (true, h ++ [mkVersion 1 2 3 (lit "beta")]) /\
  IsValidVersionString (lit "vX") h = Some (false, h ++ [zeroVersion]) /\
  IsValidVersionString (lit "1.2.3.4") h =
    Some (true, h ++ [mkVersion 1 2 3 (lit ".4")]) /\
  (forall s,
     (length (Split (nth 1 (FindStringSubmatch reSemVer s) []) ".") <= 3)%nat).
Proof.
  split; [|split; [|split]].
  - rewrite IsValidVersionString_parse. eval_parse. reflexivity.
  - rewrite IsValidVersionString_parse. eval_parse. reflexivity.
  - rewrite IsValidVersionString_parse. eval_parse. reflexivity.
  - intros s. pose proof (FindStringSubmatch_scan s) as Hfind.
    destruct (scan s) as [[pieces rest]|] eqn:Hscan.
    + destruct Hfind as [whole ->]. cbn [nth].
      destruct (scan_pieces _ _ _ Hscan) as [Hdig Hlen].
      rewrite Split_Join; [lia | | exact Hdig].
      destruct pieces; [simpl in Hlen; lia | discriminate].
    + rewrite Hfind. cbn. lia.
Qed.

(** C2: a minor or patch number too large for [int] makes
    [NewVersionFromString] return its error together with a Version in
    which the components parsed before it are already stored. *)
Theorem C2_error_after_major_was_stored (h : heap) :
  NewVersionFromString (lit "1.99999999999999999999") h =
    Some ((length h, Some (lit "invalid minor version: 99999999999999999999")),
          h ++ [mkVersion 1 0 0 []]) /\
  NewVersionFromString (lit "1.2.99999999999999999999") h =
    Some ((length h, Some (lit "invalid patch version: 99999999999999999999")),
          h ++ [mkVersion 1 2 0 []]).
Proof.
  split; rewrite NewVersionFromString_parse; eval_parse; reflexivity.
Qed.

(** C3: after [v.Set(1,2,3)], the call [v.SetFromString("v4.5.6")] returns
    a pointer [w] to a new Version holding 4.5.6, different from [v], and
    [v] still holds 1.2.3. *)
Theorem C3_SetFromString_returns_new_instance :
  run (v <- NewVersion ;;
       _ <- Set_ v 1 2 3 [] ;;
       w <- SetFromString v (lit "v4.5.6") ;;
       x <- load v ;;
       y <- load w ;;
       ret (v, w, x, y))
  = Some (0%nat, 1%nat, mkVersion 1 2 3 [], mkVersion 4 5 6 []).
Proof. vm_compute. reflexivity. Qed.

Lemma lessAt_valid h p q :
  (p < length h)%nat -> (q < length h)%nat ->
  lessAt h p q = Some (less (deref h p) (deref h q)).
Proof.
  intros Hp Hq. unfold lessAt, deref.
  destruct (lookup_lt_is_Some_2 h p Hp) as [a ->].
  destruct (lookup_lt_is_Some_2 h q Hq) as [b ->]. reflexivity.
Qed.

(** C4: [less] compares major, then minor, then patch, then the suffix as
    a byte string; the order [leq] it induces is reflexive, antisymmetric,
    transitive and total, and [SortVersions], run on a slice of valid
    pointers, leaves a permutation of the slice that is non-decreasing
    under it, without touching the Versions. *)
Theorem C4_total_order_and_sorted_output (h : heap) (versions : list loc)
  (Hvalid : forallb (fun p => (p <? length h)%nat) versions = true) :
  (forall a b,
     less a b = true <->
     major a < major b \/
     (major a = major b /\
      (minor a < minor b \/
       (minor a = minor b /\
        (patch a < patch b \/
         (patch a = patch b /\ str_lt (suffix a) (suffix b) = true)))))) /\
  (forall a, leq a a = true) /\
  (forall a b, leq a b = true -> leq b a = true -> a = b) /\
  (forall a b c, leq a b = true -> leq b c = true -> leq a c = true) /\
  (forall a b, leq a b = true \/ leq b a = true) /\
  exists sorted,
    SortVersions versions h = Some (sorted, h) /\
    Permutation versions sorted /\
    forall i j p q a b,
      (i <= j)%nat -> sorted !! i = Some p -> sorted !! j = Some q ->
      h !! p = Some a -> h !! q = Some b -> leq a b = true.
Proof.
  split; [exact less_spec|]. split; [exact leq_refl|].
  split; [exact leq_antisym|]. split; [exact leq_trans|].
  split; [exact leq_total|].
  assert (Hv : Forall (fun p => (p < length h)%nat) versions).
  { apply List.Forall_forall. intros p Hp.
    rewrite forallb_forall in Hvalid. apply Nat.ltb_lt. now apply Hvalid. }
  destruct (sort_Slice_sorted (lessAt h)
              (fun p q => less (deref h p) (deref h q))
              (fun p => (p < length h)%nat)) with (data := versions)
    as (sorted & Hsort & Hperm & Hsorted).
  - intros p q. apply lessAt_valid.
  - intros p q. apply less_asym.
  - intros p q r Hqp Hrq.
    pose proof (leq_trans (deref h p) (deref h q) (deref h r)) as T.
    unfold leq in T. rewrite Hqp, Hrq in T.
    destruct (less (deref h r) (deref h p)); [now specialize (T eq_refl eq_refl)|].
    reflexivity.
  - exact Hv.
  - exists sorted. split; [unfold SortVersions; now rewrite Hsort|].
    split; [exact Hperm|].
    intros i j p q a b Hij Hi Hj Ha Hb.
    destruct (Nat.eq_dec i j) as [->|Hne].
    + rewrite Hi in Hj. injection Hj as <-. rewrite Ha in Hb.
      injection Hb as <-. apply leq_refl.
    + assert (Hlt : (i < j)%nat) by lia.
      pose proof (StronglySorted_lookup _ sorted i j p q Hsorted Hlt Hi Hj) as R.
      cbv beta in R. unfold deref in R. rewrite Ha, Hb in R. cbn in R.
      unfold leq. now rewrite R.
Qed.

Lemma C4_witness :
  let h := [mkVersion 1 2 3 []; mkVersion 1 0 0 (lit "beta"); mkVersion 1 0 0 []] in
  forallb (fun p => (p <? length h)%nat) [0; 1; 2]%nat = true /\
  exists sorted,
    SortVersions [0; 1; 2]%nat h = Some (sorted, h) /\
    Permutation [0; 1; 2]%nat sorted.
Proof.
  intros h. split; [reflexivity|].
  destruct (C4_total_order_and_sorted_output h [0; 1; 2]%nat eq_refl)
    as (_ & _ & _ & _ & _ & sorted & Hsort & Hperm & _).
  exists sorted. split; assumption.
Defined.

(** C5, as stated: a suffix that neither starts with a hyphen nor consists
    of digits and dots, but holds a line feed, does not survive the round
    trip; the [.] atoms of the pattern stop at the line feed. *)
Lemma C5_counterexample :
  let suf := lit "a" ++ [lineFeed] ++ lit "b" in
  hd_error suf <> Some "-"%char /\
  forallb (fun c => isDigit c || is_char "." c) suf = false /\
  run (v <- NewVersion ;;
       _ <- Set_ v 1 0 0 [suf] ;;
       s <- String v ;;
       r <- NewVersionFromString s ;;
       x <- load v ;;
       y <- load (fst r) ;;
       ret (snd r, x, y))
  = Some (None, mkVersion 1 0 0 suf, mkVersion 1 0 0 (lit "a")) /\
  mkVersion 1 0 0 (lit "a") <> mkVersion 1 0 0 suf.
Proof.
  intros suf. split; [discriminate|]. split; [reflexivity|].
  split; [vm_compute; reflexivity | discriminate].
Qed.

(** C5, amended: for a Version whose components are not negative (and, as
    every Go [int], at most [maxInt]) and whose suffix holds no line feed,
    parsing the text [String] returns succeeds and yields a new Version
    equal to it field for field; a suffix may start with a hyphen or
    consist of digits and dots. *)
Theorem C5_roundtrip (h : heap) (v : loc) (x : Version)
  (Hv : h !! v = Some x)
  (Hmajor : 0 <= major x <= maxInt)
  (Hminor : 0 <= minor x <= maxInt)
  (Hpatch : 0 <= patch x <= maxInt)
  (Hsuffix : forallb notNewline (suffix x) = true) :
  exists s,
    String v h = Some (s, h) /\
    NewVersionFromString s h = Some ((length h, None), h ++ [x]).
Proof.
  exists (format x). split.
  - unfold String, bind, load. now rewrite Hv.
  - rewrite NewVersionFromString_parse, parse_format by assumption. reflexivity.
Qed.

Lemma C5_roundtrip_witness :
  let x := mkVersion 1 0 3 (lit "-rc.1") in
  let h := [x] in
  exists s,
    String 0%nat h = Some (s, h) /\
    NewVersionFromString s h = Some ((1%nat, None), [x; x]).
Proof.
  intros x h.
  apply (C5_roundtrip h 0%nat x); [reflexivity | | | | reflexivity];
    unfold maxInt; cbn; lia.
Defined.

(** C6: the formatter writes "v" and major, then "." and minor exactly when
    minor or patch is not zero, then "." and patch exactly when patch is
    not zero, then "-" and the suffix exactly when the suffix is not empty;
    so a new Version prints as "v0", and after [Set] with (1,0,0), (1,2,0),
    (1,0,3), (1,2,3) as "v1", "v1.2", "v1.0.3", "v1.2.3". *)
Theorem C6_format_elides_trailing_zeros :
  (forall x,
     format x =
     lit "v" ++ fmt_d (major x) ++
     (if negb (minor x =? 0) || negb (patch x =? 0)
      then lit "." ++ fmt_d (minor x) else []) ++
     (if negb (patch x =? 0) then lit "." ++ fmt_d (patch x) else []) ++
     (match suffix x with [] => [] | _ => lit "-" ++ suffix x end)) /\
  run (v <- NewVersion ;; String v) = Some (lit "v0") /\
  run (v <- NewVersion ;; _ <- Set_ v 1 0 0 [] ;; String v) = Some (lit "v1") /\
  run (v <- NewVersion ;; _ <- Set_ v 1 2 0 [] ;; String v) = Some (lit "v1.2") /\
  run (v <- NewVersion ;; _ <- Set_ v 1 0 3 [] ;; String v) = Some (lit "v1.0.3") /\
  run (v <- NewVersion ;; _ <- Set_ v 1 2 3 [] ;; String v) = Some (lit "v1.2.3").
Proof.
  split.
  - intros x. rewrite format_eq. unfold hyphenated.
    destruct (minor x =? 0); destruct (patch x =? 0); cbn [andb orb negb];
      rewrite ?app_nil_l, <- ?app_assoc; reflexivity.
  - repeat (split; [vm_compute; reflexivity|]). vm_compute. reflexivity.
Qed.

(** C7: when the text does not parse, [SetFromString] returns its receiver
    and the receiver holds what it held before; the only change to the heap
    is the Version the failed parse allocated. *)
Theorem C7_SetFromString_failure_keeps_receiver
  (h h' : heap) (v p : loc) (x : Version) (s : str) (e : error)
  (Hv : h !! v = Some x)
  (Hfail : NewVersionFromString s h = Some ((p, Some e), h')) :
  SetFromString v s h = Some (v, h') /\ h' !! v = Some x.
Proof.
  rewrite NewVersionFromString_parse in Hfail.
  injection Hfail as _ He Hh. subst h'.
  rewrite SetFromString_parse, He. split; [reflexivity|].
  rewrite lookup_app_l; [exact Hv | eapply lookup_lt_Some, Hv].
Qed.

Lemma C7_witness :
  let h := [mkVersion 1 2 3 []] in
  let h' := [mkVersion 1 2 3 []; zeroVersion] in
  SetFromString 0%nat (lit "garbage") h = Some (0%nat, h') /\
  h' !! 0%nat = Some (mkVersion 1 2 3 []).
Proof.
  intros h h'.
  apply (C7_SetFromString_failure_keeps_receiver h h' 0%nat 1%nat
           (mkVersion 1 2 3 []) (lit "garbage")
           (lit "invalid version format: garbage")).
  - reflexivity.
  - vm_compute. reflexivity.
Defined.

(** C8, as stated: parsing "1--x" succeeds with the suffix "-x", and
    [SetSuffix("-x")] stores "-x" as well. *)
Lemma C8_counterexample :
  run (r <- NewVersionFromString (lit "1--x") ;;
       x <- load (fst r) ;;
       ret (snd r, x))
  = Some (None, mkVersion 1 0 0 (lit "-x")) /\
  run (v <- NewVersion ;; _ <- SetSuffix v [lit "-x"] ;; load v)
  = Some (mkVersion 0 0 0 (lit "-x")) /\
  hd_error (lit "-x") = Some "-"%char.
Proof. repeat (split; [vm_compute; reflexivity|]). reflexivity. Qed.

(** C8, amended: the parser strips one hyphen after the numeric run and no
    more.  The suffix of the Version it returns starts with a hyphen only
    when the parse succeeded and the input holds a digit followed by two
    hyphens; a new Version has the empty suffix; and [SetSuffix] stores the
    segments joined by dots as they are, without looking at hyphens. *)
Theorem C8_parsed_suffix_hyphen_needs_two
  (s : str) (h h' : heap) (p : loc) (e : option error) (x : Version)
  (Hparse : NewVersionFromString s h = Some ((p, e), h'))
  (Hx : h' !! p = Some x)
  (Hhyphen : hd_error (suffix x) = Some "-"%char) :
  (e = None /\
   exists pre d rest, isDigit d = true /\ s = pre ++ d :: lit "--" ++ rest) /\
  NewVersion h = Some (length h, h ++ [mkVersion 0 0 0 []]) /\
  (forall v y elements,
     h !! v = Some y ->
     SetSuffix v elements h =
     Some (v, <[v := mkVersion (major y) (minor y) (patch y)
                               (Join elements (lit "."))]> h)).
Proof.
  split; [|split; [reflexivity|]].
  - rewrite NewVersionFromString_parse in Hparse.
    injection Hparse as <- <- <-. rewrite lookup_last in Hx.
    injection Hx as <-. now apply parse_hyphen.
  - intros v y elements Hy. now apply SetSuffix_valid.
Qed.

Lemma C8_witness :
  exists pre d rest,
    isDigit d = true /\ lit "1--x" = pre ++ d :: lit "--" ++ rest.
Proof.
  apply (C8_parsed_suffix_hyphen_needs_two (lit "1--x") [] [mkVersion 1 0 0 (lit "-x")]
           0%nat None (mkVersion 1 0 0 (lit "-x"))).
  - vm_compute. reflexivity.
  - reflexivity.
  - reflexivity.
Defined.

(** C9, as stated: [SetMajor(-1)] stores -1; the setters check nothing. *)
Lemma C9_counterexample :
  run (v <- NewVersion ;; _ <- SetMajor v (-1) ;; load v)
  = Some (mkVersion (-1) 0 0 []) /\
  major (mkVersion (-1) 0 0 []) < 0.
Proof. split; [vm_compute; reflexivity | cbn; lia]. Qed.

(** C9, amended: the components of a new Version are 0, and those of the
    Version [NewVersionFromString] returns, with or without an error, lie
    between 0 and the largest [int]; the setters store the number they are
    given, whatever its sign. *)
Theorem C9_parsed_components_not_negative
  (s : str) (h h' : heap) (p : loc) (e : option error) (x : Version)
  (Hparse : NewVersionFromString s h = Some ((p, e), h'))
  (Hx : h' !! p = Some x) :
  (0 <= major x <= maxInt /\ 0 <= minor x <= maxInt /\ 0 <= patch x <= maxInt) /\
  NewVersion h = Some (length h, h ++ [mkVersion 0 0 0 []]) /\
  (forall v y n,
     h !! v = Some y ->
     SetMajor v n h =
       Some (v, <[v := mkVersion n (minor y) (patch y) (suffix y)]> h) /\
     SetMinor v n h =
       Some (v, <[v := mkVersion (major y) n (patch y) (suffix y)]> h) /\
     SetPatch v n h =
       Some (v, <[v := mkVersion (major y) (minor y) n (suffix y)]> h)).
Proof.
  split; [|split; [reflexivity|]].
  - rewrite NewVersionFromString_parse in Hparse.
    injection Hparse as <- <- <-. rewrite lookup_last in Hx.
    injection Hx as <-. exact (parse_range s).
  - intros v y n Hy.
    split; [now apply SetMajor_valid|].
    split; [now apply SetMinor_valid | now apply SetPatch_valid].
Qed.

Lemma C9_witness :
  let x := mkVersion 12 345 6789 (lit "rc") in
  0 <= major x <= maxInt /\ 0 <= minor x <= maxInt /\ 0 <= patch x <= maxInt.
Proof.
  intros x.
  apply (C9_parsed_components_not_negative (lit "v12.345.6789-rc") [] [x]
           0%nat None x).
  - vm_compute. reflexivity.
  - reflexivity.
Defined.

(** C10: the pattern is searched for, not anchored: it does not match at
    the head of "abc1.2", yet [NewVersionFromString("abc1.2")] succeeds
    with major 1, minor 2, patch 0 and the empty suffix. *)
Theorem C10_match_anywhere (h : heap) :
  matchHere reSemVer (lit "abc1.2") = None /\
  FindStringSubmatch reSemVer (lit "abc1.2") = [lit "1.2"; lit "1.2"; []] /\
  NewVersionFromString (lit "abc1.2") h =
    Some ((length h, None), h ++ [mkVersion 1 2 0 []]).
Proof.
  split; [vm_compute; reflexivity|]. split; [vm_compute; reflexivity|].
  rewrite NewVersionFromString_parse. eval_parse. reflexivity.
Qed.

(** * Further properties of the package *)

(** ** The parser, beyond the claims *)

Lemma suffixOf_noNewline rest : forallb notNewline (suffixOf rest) = true.
Proof. apply takeP_all. Qed.

(** Whatever the parser stores as suffix holds no line feed. *)
Lemma parse_suffix_noNewline s :
  forallb notNewline (suffix (fst (parse s))) = true.
Proof.
  destruct (suffix (fst (parse s))) as [|c t] eqn:E; [reflexivity|].
  destruct (parse_suffix s) as (_ & pieces & rest & _ & Hsuf); [congruence|].
  rewrite <- E, Hsuf. apply suffixOf_noNewline.
Qed.

Lemma suffixOf_hyphenated_cut suf :
  suffixOf (hyphenated suf) = takeP notNewline suf.
Proof.
  destruct suf as [|c suf]; [reflexivity|].
  unfold suffixOf. cbn [hyphenated lit list_ascii_of_string app stripHyphen].
  change (is_char "-" "-") with true. reflexivity.
Qed.

(** Parsing a formatted Version, whatever its suffix: the numbers come
    back and the suffix is cut at its first line feed. *)
Lemma parse_format_cut x :
  0 <= major x <= maxInt -> 0 <= minor x <= maxInt -> 0 <= patch x <= maxInt ->
  parse (format x) =
  (mkVersion (major x) (minor x) (patch x) (takeP notNewline (suffix x)), None).
Proof.
  intros Ha Hb Hc. destruct x as [a b c suf]. cbn [major minor patch suffix] in *.
  pose proof (fmt_d_digitStr a (proj1 Ha)) as Da.
  pose proof (fmt_d_digitStr b (proj1 Hb)) as Db.
  pose proof (fmt_d_digitStr c (proj1 Hc)) as Dc.
  unfold parse. rewrite format_eq. cbn [major minor patch suffix].
  destruct (b =? 0) eqn:Eb; destruct (c =? 0) eqn:Ec; cbn [andb];
    try apply Z.eqb_eq in Eb; try apply Z.eqb_eq in Ec; subst.
  - rewrite (scan_v _ _ (numRun_one _ suf Da)).
    rewrite Atoi_fmt_d by exact Ha. now rewrite suffixOf_hyphenated_cut.
  - rewrite (scan_v _ _ (numRun_three _ _ _ suf Da Db Dc)).
    rewrite !Atoi_fmt_d by assumption. now rewrite suffixOf_hyphenated_cut.
  - rewrite (scan_v _ _ (numRun_two _ _ suf Da Db)).
    rewrite !Atoi_fmt_d by assumption. now rewrite suffixOf_hyphenated_cut.
  - rewrite (scan_v _ _ (numRun_three _ _ _ suf Da Db Dc)).
    rewrite !Atoi_fmt_d by assumption. now rewrite suffixOf_hyphenated_cut.
Qed.

(** X1: a Version that [NewVersionFromString] returned without error
    survives the round trip through [String] and the parser unchanged,
    whatever the text it was parsed from: the parser only produces Versions
    the formatter can carry. *)
Theorem X1_parsed_version_roundtrips
  (s : str) (h h' : heap) (p : loc) (x : Version)
  (Hparse : NewVersionFromString s h = Some ((p, None), h'))
  (Hx : h' !! p = Some x) :
  exists t,
    String p h' = Some (t, h') /\
    NewVersionFromString t h' = Some ((length h', None), h' ++ [x]).
Proof.
  exists (format x). split.
  - unfold String, bind, load. now rewrite Hx.
  - rewrite NewVersionFromString_parse in Hparse.
    injection Hparse as <- _ <-. rewrite lookup_last in Hx. injection Hx as <-.
    destruct (parse_range s) as (Ra & Rb & Rc).
    rewrite NewVersionFromString_parse, parse_format;
      [reflexivity | assumption .. | apply parse_suffix_noNewline].
Qed.

Lemma X1_witness :
  let x := mkVersion 1 20 0 (lit "rc.1 (build 7)") in
  exists t,
    String 0%nat [x] = Some (t, [x]) /\
    NewVersionFromString t [x] = Some ((1%nat, None), [x; x]).
Proof.
  intros x.
  apply (X1_parsed_version_roundtrips
           (lit "release V01.020.0-rc.1 (build 7)") [] [x] 0%nat x).
  - vm_compute. reflexivity.
  - reflexivity.
Defined.

(** X2: the text [String] returns for a Version with components between 0
    and the largest [int] is always a valid version string, whatever the
    suffix; parsing it gives the same three numbers and the suffix up to
    its first line feed. *)
Theorem X2_formatted_text_is_valid (h : heap) (v : loc) (x : Version)
  (Hv : h !! v = Some x)
  (Hmajor : 0 <= major x <= maxInt)
  (Hminor : 0 <= minor x <= maxInt)
  (Hpatch : 0 <= patch x <= maxInt) :
  exists t,
    String v h = Some (t, h) /\
    IsValidVersionString t h =
      Some (true, h ++ [mkVersion (major x) (minor x) (patch x)
                                  (takeP notNewline (suffix x))]).
Proof.
  exists (format x). split.
  - unfold String, bind, load. now rewrite Hv.
  - rewrite IsValidVersionString_parse, parse_format_cut by assumption.
    reflexivity.
Qed.

Lemma X2_witness :
  let x := mkVersion 0 0 7 (lit "a" ++ [lineFeed] ++ lit "b") in
  exists t,
    String 0%nat [x] = Some (t, [x]) /\
    IsValidVersionString t [x] = Some (true, [x; mkVersion 0 0 7 (lit "a")]).
Proof.
  intros x.
  apply (X2_formatted_text_is_valid [x] 0%nat x); [reflexivity | | |];
    unfold maxInt; cbn; lia.
Defined.

(** X3: two Versions with components between 0 and the largest [int] and
    suffixes without line feed that print the same are the same: the
    formatter loses nothing on them. *)
Theorem X3_format_injective (x y : Version)
  (Hx : inRange (major x) /\ inRange (minor x) /\ inRange (patch x))
  (Hy : inRange (major y) /\ inRange (minor y) /\ inRange (patch y))
  (Hsx : forallb notNewline (suffix x) = true)
  (Hsy : forallb notNewline (suffix y) = true)
  (Hsame : format x = format y) :
  x = y.
Proof.
  destruct Hx as (? & ? & ?), Hy as (? & ? & ?).
  assert (E : parse (format x) = parse (format y)) by now rewrite Hsame.
  rewrite !parse_format in E by assumption. congruence.
Qed.

Lemma X3_witness :
  mkVersion 1 0 0 (lit "0.3") = mkVersion 1 0 0 (lit "0.3").
Proof.
  apply X3_format_injective; try reflexivity;
    unfold inRange, maxInt; cbn; lia.
Defined.

(** Apart from the text of the "invalid version format" message, the
    parser's result is a function of what the scanner finds. *)
Lemma parse_of_scan s1 s2 :
  scan s1 = scan s2 ->
  fst (parse s1) = fst (parse s2) /\
  (snd (parse s1) = None <-> snd (parse s2) = None) /\
  (scan s1 <> None -> parse s1 = parse s2).
Proof.
  intros E. unfold parse. rewrite <- E.
  destruct (scan s1) as [[pieces rest]|] eqn:Hscan.
  - destruct (scan_pieces _ _ _ Hscan) as [_ Hlen].
    destruct pieces as [|d1 ps]; [simpl in Hlen; lia|].
    repeat split; auto.
  - cbn. repeat split; intros; congruence.
Qed.

Lemma numRun_digit_head t r : numRun t = Some r -> stripV t = t.
Proof.
  destruct t as [|c t]; [reflexivity|]. unfold numRun. cbn [takeP].
  destruct (isDigit c) eqn:E; [|discriminate]. intros _.
  unfold stripV. destruct (is_char "v" c) eqn:Ev.
  { apply is_char_eq in Ev. subst c. discriminate. }
  destruct (is_char "V" c) eqn:EV; [|reflexivity].
  apply is_char_eq in EV. subst c. discriminate.
Qed.

Lemma scan_of_numRun t r : numRun t = Some r -> scan t = Some r.
Proof.
  intros H. destruct t as [|c t]; cbn [scan];
    rewrite (numRun_digit_head _ _ H), H; reflexivity.
Qed.

Lemma scan_prefix_letter c t :
  is_char "v" c || is_char "V" c = true -> scan (c :: t) = scan t.
Proof.
  intros Hc. cbn [scan stripV]. rewrite Hc.
  destruct (numRun t) as [r|] eqn:N; [|reflexivity].
  symmetry. now apply scan_of_numRun.
Qed.

(** X4: the leading letter may be "v" or "V": both spellings give the same
    Version, and the one is valid exactly when the other is. *)
Theorem X4_prefix_letter_case (t : str) (h : heap) :
  exists x e1 e2,
    NewVersionFromString (lit "v" ++ t) h = Some ((length h, e1), h ++ [x]) /\
    NewVersionFromString (lit "V" ++ t) h = Some ((length h, e2), h ++ [x]) /\
    (e1 = None <-> e2 = None).
Proof.
  assert (E : scan (lit "v" ++ t) = scan (lit "V" ++ t)).
  { cbn [lit list_ascii_of_string app].
    rewrite !scan_prefix_letter by reflexivity. reflexivity. }
  destruct (parse_of_scan _ _ E) as (Hv & He & _).
  exists (fst (parse (lit "v" ++ t))), (snd (parse (lit "v" ++ t))),
         (snd (parse (lit "V" ++ t))).
  rewrite !NewVersionFromString_parse, Hv. auto.
Qed.

(** Text without a digit in front of the input does not change what the
    scanner finds. *)
Lemma scan_skip pre s : existsb isDigit pre = false -> scan (pre ++ s) = scan s.
Proof.
  induction pre as [|c pre IH]; [reflexivity|].
  cbn [existsb]. intros H. apply orb_false_iff in H as [Hc Hpre].
  specialize (IH Hpre). cbn [app].
  destruct (is_char "v" c || is_char "V" c) eqn:Ev.
  - rewrite scan_prefix_letter by exact Ev. exact IH.
  - cbn [scan stripV]. rewrite Ev, (numRun_nondigit c _ Hc). exact IH.
Qed.

(** X5: text without any digit in front of a version string is skipped:
    the Version returned is the same with and without it, and so is
    validity. *)
Theorem X5_leading_text_is_skipped (pre s : str) (h : heap)
  (Hpre : existsb isDigit pre = false) :
  exists x e1 e2,
    NewVersionFromString (pre ++ s) h = Some ((length h, e1), h ++ [x]) /\
    NewVersionFromString s h = Some ((length h, e2), h ++ [x]) /\
    (e1 = None <-> e2 = None).
Proof.
  destruct (parse_of_scan _ _ (scan_skip pre s Hpre)) as (Hv & He & _).
  exists (fst (parse (pre ++ s))), (snd (parse (pre ++ s))), (snd (parse s)).
  rewrite !NewVersionFromString_parse, Hv. auto.
Qed.

Lemma X5_witness :
  exists x e1 e2,
    NewVersionFromString (lit "version: " ++ lit "v2.1-beta") [] =
      Some ((0%nat, e1), [x]) /\
    NewVersionFromString (lit "v2.1-beta") [] = Some ((0%nat, e2), [x]) /\
    (e1 = None <-> e2 = None).
Proof.
  apply (X5_leading_text_is_skipped (lit "version: ") (lit "v2.1-beta") []).
  reflexivity.
Defined.

(** Appending text that starts with a byte outside the class leaves the
    run at the head as it was. *)
Lemma takeP_dropP_app p a c t :
  p c = false ->
  takeP p (a ++ c :: t) = takeP p a /\ dropP p (a ++ c :: t) = dropP p a ++ c :: t.
Proof.
  intros Hc. induction a as [|y a IH]; cbn [app takeP dropP].
  - now rewrite Hc.
  - destruct (p y); [|auto]. destruct IH as [-> ->]. auto.
Qed.

Lemma dotDigits_app_other r c t :
  isDigit c = false -> is_char "." c = false ->
  dotDigits (r ++ c :: t) =
  match dotDigits r with
  | Some (d, r') => Some (d, r' ++ c :: t)
  | None => None
  end.
Proof.
  intros Hd Hdot. destruct r as [|y r0]; cbn [app dotDigits].
  - now rewrite Hdot.
  - destruct (is_char "." y); [|reflexivity].
    destruct (takeP_dropP_app isDigit r0 c t Hd) as [-> ->].
    destruct (takeP isDigit r0); reflexivity.
Qed.

Lemma numRun_app_other u c t :
  isDigit c = false -> is_char "." c = false ->
  numRun (u ++ c :: t) =
  match numRun u with
  | Some (pieces, rest) => Some (pieces, rest ++ c :: t)
  | None => None
  end.
Proof.
  intros Hd Hdot. unfold numRun.
  destruct (takeP_dropP_app isDigit u c t Hd) as [-> ->].
  destruct (takeP isDigit u) as [|x d1]; [reflexivity|].
  rewrite (dotDigits_app_other _ c t Hd Hdot).
  destruct (dotDigits (dropP isDigit u)) as [[d2 r2]|]; [|reflexivity].
  rewrite (dotDigits_app_other _ c t Hd Hdot).
  destruct (dotDigits r2) as [[d3 r3]|]; reflexivity.
Qed.

Lemma scan_app_other s c t pieces rest :
  isDigit c = false -> is_char "." c = false ->
  scan s = Some (pieces, rest) ->
  scan (s ++ c :: t) = Some (pieces, rest ++ c :: t).
Proof.
  intros Hd Hdot. induction s as [|y s IH].
  - cbn. discriminate.
  - cbn [app scan].
    assert (E : stripV (y :: s ++ c :: t) = stripV (y :: s) ++ c :: t).
    { unfold stripV. destruct (is_char "v" y || is_char "V" y); reflexivity. }
    rewrite E, (numRun_app_other _ c t Hd Hdot).
    destruct (numRun (stripV (y :: s))) as [[ps r]|].
    + intros [= -> ->]. reflexivity.
    + exact IH.
Qed.

Lemma suffixOf_lineFeed rest t : suffixOf (rest ++ lineFeed :: t) = suffixOf rest.
Proof.
  unfold suffixOf. destruct rest as [|c r]; [reflexivity|].
  cbn [app stripHyphen]. destruct (is_char "-" c).
  - now destruct (takeP_dropP_app notNewline r lineFeed t eq_refl) as [-> _].
  - change (c :: r ++ lineFeed :: t) with ((c :: r) ++ lineFeed :: t).
    now destruct (takeP_dropP_app notNewline (c :: r) lineFeed t eq_refl) as [-> _].
Qed.

Lemma parse_lineFeed s t :
  scan s <> None -> parse (s ++ lineFeed :: t) = parse s.
Proof.
  intros Hs. unfold parse.
  destruct (scan s) as [[pieces rest]|] eqn:Hscan; [|congruence].
  rewrite (scan_app_other s lineFeed t pieces rest eq_refl eq_refl Hscan).
  rewrite suffixOf_lineFeed.
  destruct (scan_pieces _ _ _ Hscan) as [_ Hlen].
  destruct pieces; [simpl in Hlen; lia | reflexivity].
Qed.

(** The scanner finds nothing exactly in the inputs without a digit. *)
Lemma scan_None s : scan s = None <-> existsb isDigit s = false.
Proof.
  induction s as [|c s IH].
  - split; reflexivity.
  - cbn [existsb]. destruct (isDigit c) eqn:Hc.
    + split; [|discriminate]. intros H. exfalso.
      assert (N : exists r, numRun (c :: s) = Some r).
      { unfold numRun. cbn [takeP]. rewrite Hc.
        destruct (dotDigits (dropP isDigit (c :: s))) as [[d2 r2]|]; [|eauto].
        destruct (dotDigits r2) as [[d3 r3]|]; eauto. }
      destruct N as [r N]. apply scan_of_numRun in N. congruence.
    + cbn [orb]. rewrite <- IH.
      destruct (is_char "v" c || is_char "V" c) eqn:Ev.
      * now rewrite scan_prefix_letter by exact Ev.
      * cbn [scan stripV]. rewrite Ev, (numRun_nondigit c s Hc). reflexivity.
Qed.

(** X6: once the input holds a digit, a line feed and everything after it
    can be appended without changing the result: the same Version and the
    same error come back.  Only the first line that holds a number counts,
    and a suffix never runs past the end of its line. *)
Theorem X6_text_after_line_feed_is_ignored (s t : str) (h : heap)
  (Hdigit : existsb isDigit s = true) :
  NewVersionFromString (s ++ lineFeed :: t) h = NewVersionFromString s h.
Proof.
  rewrite !NewVersionFromString_parse, parse_lineFeed; [reflexivity|].
  intros E. apply scan_None in E. congruence.
Qed.

Lemma X6_witness :
  NewVersionFromString (lit "v1.2-rc" ++ lineFeed :: lit "v9.9.9") [] =
  NewVersionFromString (lit "v1.2-rc") [].
Proof.
  apply (X6_text_after_line_feed_is_ignored (lit "v1.2-rc") (lit "v9.9.9") []).
  reflexivity.
Defined.

(** With a digit in the input the error, if any, is about one of the
    numbers. *)
Lemma parse_digit_error s :
  existsb isDigit s = true ->
  snd (parse s) <> Some (Errorf "invalid version format: " s).
Proof.
  intros H. unfold parse.
  destruct (scan s) as [[pieces rest]|] eqn:Hscan.
  2:{ apply scan_None in Hscan. congruence. }
  destruct (scan_pieces _ _ _ Hscan) as [_ Hlen].
  destruct pieces as [|d1 ps]; [simpl in Hlen; lia|].
  destruct (Atoi d1) as [a|]; [|cbn; congruence].
  destruct ps as [|d2 ps']; [cbn; discriminate|].
  destruct (Atoi d2) as [b|]; [|cbn; congruence].
  destruct ps' as [|d3 ps'']; [cbn; discriminate|].
  destruct (Atoi d3) as [c|]; [cbn; discriminate | cbn; congruence].
Qed.

(** X7: [NewVersionFromString] answers "invalid version format", with an
    all-zero Version, exactly on the inputs that hold no decimal digit at
    all (the empty string among them).  An input with a digit anywhere is
    either valid or has a number too large for [int]. *)
Theorem X7_invalid_format_iff_no_digit (s : str) (h : heap) :
  NewVersionFromString s h =
    Some ((length h, Some (Errorf "invalid version format: " s)),
          h ++ [mkVersion 0 0 0 []])
  <-> existsb isDigit s = false.
Proof.
  rewrite NewVersionFromString_parse. split.
  - intros [= He _]. destruct (existsb isDigit s) eqn:E; [|reflexivity].
    now apply parse_digit_error in E.
  - intros H. apply scan_None in H. unfold parse. now rewrite H.
Qed.

Lemma parseDigits_digits d a :
  forallb isDigit d = true -> exists n, parseDigits d a = Some n.
Proof.
  revert a. induction d as [|c d IH]; intros a; cbn [forallb parseDigits].
  - eauto.
  - intros H. apply andb_true_iff in H as [-> Hd]. now apply IH.
Qed.

Lemma parseDigits_upper d a n :
  0 <= a -> parseDigits d a = Some n -> n < (a + 1) * 10 ^ Z.of_nat (length d).
Proof.
  revert a. induction d as [|c d IH]; intros a Ha; cbn [parseDigits length].
  - intros [= <-]. cbn. lia.
  - destruct (isDigit c) eqn:E; [|discriminate].
    pose proof (digitVal_nonneg c E) as Hv. intros H.
    apply IH in H; [|lia].
    rewrite Nat2Z.inj_succ, Z.pow_succ_r by lia.
    assert (0 < 10 ^ Z.of_nat (length d)) by (apply Z.pow_pos_nonneg; lia).
    nia.
Qed.

(** Up to eighteen digits always fit [int]: the fast path of
    [strconv.Atoi]. *)
Lemma Atoi_short d :
  digitStr d -> (length d <= 18)%nat -> exists n, Atoi d = Some n.
Proof.
  intros Hd Hlen. rewrite (Atoi_digitStr d Hd).
  destruct (parseDigits_digits d 0 (proj2 Hd)) as [n Hn]. rewrite Hn.
  pose proof (parseDigits_upper d 0 n (Z.le_refl 0) Hn) as Hup.
  assert (10 ^ Z.of_nat (length d) <= 10 ^ 18)
    by (apply Z.pow_le_mono_r; lia).
  destruct (maxInt <? n) eqn:E; [|eauto].
  apply Z.ltb_lt in E. unfold maxInt in E. lia.
Qed.

Lemma Join_length (sep : str) pieces d :
  In d pieces -> (length d <= length (Join pieces sep))%nat.
Proof.
  induction pieces as [|e es IH]; [contradiction|].
  intros [->|Hin].
  - destruct es; cbn [Join]; rewrite ?length_app; lia.
  - specialize (IH Hin). destruct es as [|e' es']; [contradiction|].
    change (Join (e :: e' :: es') sep) with (e ++ sep ++ Join (e' :: es') sep).
    rewrite !length_app. lia.
Qed.

Lemma parse_short s :
  (length s <= 18)%nat -> existsb isDigit s = true -> snd (parse s) = None.
Proof.
  intros Hlen Hdigit. unfold parse.
  destruct (scan s) as [[pieces rest]|] eqn:Hscan.
  2:{ apply scan_None in Hscan. congruence. }
  destruct (scan_pieces _ _ _ Hscan) as [Hdig Hn].
  destruct (scan_app _ _ _ Hscan) as [pre Hs].
  assert (Hok : forall d, In d pieces -> exists n, Atoi d = Some n).
  { intros d Hin. apply Atoi_short.
    - rewrite List.Forall_forall in Hdig. now apply Hdig.
    - pose proof (Join_length (lit ".") pieces d Hin) as Hj.
      rewrite Hs, !length_app in Hlen. lia. }
  destruct pieces as [|d1 ps]; [simpl in Hn; lia|].
  destruct (Hok d1) as [a ->]; [now left|].
  destruct ps as [|d2 ps']; [reflexivity|].
  destruct (Hok d2) as [b ->]; [right; now left|].
  destruct ps' as [|d3 ps'']; [reflexivity|].
  destruct (Hok d3) as [c ->]; [right; right; now left|].
  reflexivity.
Qed.

(** X8: an input of at most eighteen bytes is a valid version string
    exactly when it holds a decimal digit: numbers that short always fit
    [int], so nothing else can go wrong. *)
Theorem X8_short_input_valid_iff_digit (s : str) (h : heap)
  (Hlen : (length s <= 18)%nat) :
  (exists x, IsValidVersionString s h = Some (true, h ++ [x]))
  <-> existsb isDigit s = true.
Proof.
  rewrite IsValidVersionString_parse. split.
  - intros [x [= He _]]. destruct (existsb isDigit s) eqn:E; [reflexivity|].
    apply scan_None in E. unfold parse in He. rewrite E in He. discriminate.
  - intros H. rewrite (parse_short s Hlen H). eauto.
Qed.

Lemma X8_witness :
  (exists x, IsValidVersionString (lit "build #12, rev 3") [] = Some (true, [x]))
  <-> existsb isDigit (lit "build #12, rev 3") = true.
Proof.
  apply (X8_short_input_valid_iff_digit (lit "build #12, rev 3") []).
  cbn. lia.
Defined.

Lemma parse_v_one d suf :
  digitStr d ->
  parse (lit "v" ++ d ++ hyphenated suf) =
  match Atoi d with
  | None => (zeroVersion, Some (Errorf "invalid major version: " d))
  | Some a => (mkVersion a 0 0 (suffixOf (hyphenated suf)), None)
  end.
Proof.
  intros Hd. unfold parse. rewrite (scan_v _ _ (numRun_one d suf Hd)).
  reflexivity.
Qed.

Lemma digitStr_0 : digitStr (lit "0").
Proof. split; [discriminate | reflexivity]. Qed.

(** X9: a missing minor or patch number counts as 0: behind the same major
    number and in front of the same suffix, the spellings "N", "N.0" and
    "N.0.0" give the same Version and the same error. *)
Theorem X9_missing_components_are_zero (d suf : str) (h : heap)
  (Hne : d <> []) (Hdigits : forallb isDigit d = true) :
  NewVersionFromString (lit "v" ++ d ++ lit ".0" ++ hyphenated suf) h =
    NewVersionFromString (lit "v" ++ d ++ hyphenated suf) h /\
  NewVersionFromString (lit "v" ++ d ++ lit ".0.0" ++ hyphenated suf) h =
    NewVersionFromString (lit "v" ++ d ++ hyphenated suf) h.
Proof.
  assert (Hd : digitStr d) by (split; assumption).
  rewrite !NewVersionFromString_parse, parse_v_one by exact Hd.
  split.
  - change (lit ".0" ++ hyphenated suf)
      with (lit "." ++ lit "0" ++ hyphenated suf).
    unfold parse. rewrite (scan_v _ _ (numRun_two d _ suf Hd digitStr_0)).
    destruct (Atoi d); reflexivity.
  - change (lit ".0.0" ++ hyphenated suf)
      with (lit "." ++ lit "0" ++ lit "." ++ lit "0" ++ hyphenated suf).
    unfold parse.
    rewrite (scan_v _ _ (numRun_three d _ _ suf Hd digitStr_0 digitStr_0)).
    destruct (Atoi d); reflexivity.
Qed.

Lemma X9_witness :
  NewVersionFromString (lit "v" ++ lit "12" ++ lit ".0" ++ hyphenated (lit "rc")) [] =
    NewVersionFromString (lit "v" ++ lit "12" ++ hyphenated (lit "rc")) [] /\
  NewVersionFromString (lit "v" ++ lit "12" ++ lit ".0.0" ++ hyphenated (lit "rc")) [] =
    NewVersionFromString (lit "v" ++ lit "12" ++ hyphenated (lit "rc")) [].
Proof.
  apply (X9_missing_components_are_zero (lit "12") (lit "rc") []).
  - discriminate.
  - reflexivity.
Defined.

(** ** Panics and the heap *)

(** X10: the three entry points that take text never panic, whatever the
    text and the heap.  Each allocates exactly one Version and leaves every
    Version that existed before as it was; [IsValidVersionString] answers
    true exactly when [NewVersionFromString] returns no error; and
    [SetFromString] does not even need a receiver that points to a
    Version. *)
Theorem X10_text_entry_points_never_panic (s : str) (h : heap) (v : loc) :
  exists e x,
    NewVersionFromString s h = Some ((length h, e), h ++ [x]) /\
    IsValidVersionString s h =
      Some (match e with None => true | Some _ => false end, h ++ [x]) /\
    SetFromString v s h =
      Some (match e with None => length h | Some _ => v end, h ++ [x]) /\
    forall w y, h !! w = Some y -> (h ++ [x]) !! w = Some y.
Proof.
  exists (snd (parse s)), (fst (parse s)).
  rewrite NewVersionFromString_parse, IsValidVersionString_parse,
    SetFromString_parse.
  repeat split. intros w y Hw.
  rewrite lookup_app_l; [exact Hw | eapply lookup_lt_Some, Hw].
Qed.

(** X11: [Set] on a receiver that points to a Version overwrites all four
    fields, whatever they held: the Version becomes the three numbers given
    and the segments joined by dots (no segment: the empty suffix).  The
    receiver is returned, and no other Version changes. *)
Theorem X11_Set_overwrites_all_fields
  (h : heap) (v : loc) (y : Version) (a b c : Z) (suffixes : list str)
  (Hv : h !! v = Some y) :
  exists h',
    Set_ v a b c suffixes h = Some (v, h') /\
    h' !! v = Some (mkVersion a b c (Join suffixes (lit "."))) /\
    length h' = length h /\
    forall w, w <> v -> h' !! w = h !! w.
Proof.
  assert (Hlt : (v < length h)%nat) by (eapply lookup_lt_Some, Hv).
  exists (<[v := mkVersion a b c (Join suffixes (lit "."))]> h).
  split; [|split; [|split]].
  - unfold Set_, bind.
    rewrite (SetMajor_valid v a h y Hv).
    rewrite (SetMinor_valid v b _ _ (list_lookup_insert_eq h v _ Hlt)).
    rewrite list_insert_insert_eq.
    rewrite (SetPatch_valid v c _ _ (list_lookup_insert_eq h v _ Hlt)).
    rewrite list_insert_insert_eq.
    rewrite (SetSuffix_valid v suffixes _ _ (list_lookup_insert_eq h v _ Hlt)).
    rewrite list_insert_insert_eq. reflexivity.
  - now apply list_lookup_insert_eq.
  - apply length_insert.
  - intros w Hw. now apply list_lookup_insert_ne.
Qed.

Lemma X11_witness :
  exists h',
    Set_ 1%nat 0 0 0 [lit "rc"; lit "1"] [zeroVersion; mkVersion 9 9 9 (lit "x")] =
      Some (1%nat, h') /\
    h' !! 1%nat = Some (mkVersion 0 0 0 (lit "rc.1")) /\
    length h' = 2%nat /\
    forall w, w <> 1%nat -> h' !! w = [zeroVersion; mkVersion 9 9 9 (lit "x")] !! w.
Proof.
  apply (X11_Set_overwrites_all_fields
           [zeroVersion; mkVersion 9 9 9 (lit "x")] 1%nat
           (mkVersion 9 9 9 (lit "x")) 0 0 0 [lit "rc"; lit "1"]).
  reflexivity.
Defined.

(** ** Sorting, beyond the claims *)

Lemma StronglySorted_map {A B} (f : A -> B) (R : B -> B -> Prop) (l : list A) :
  StronglySorted (fun a b => R (f a) (f b)) l -> StronglySorted R (map f l).
Proof.
  induction 1 as [|a l Hs IH Hall]; cbn [map]; constructor; [exact IH|].
  rewrite List.Forall_forall in Hall |- *. intros y Hy.
  apply in_map_iff in Hy as (z & <- & Hz). now apply Hall.
Qed.

Lemma StronglySorted_mono {A} (R1 R2 : A -> A -> Prop) (l : list A) :
  (forall a b, R1 a b -> R2 a b) -> StronglySorted R1 l -> StronglySorted R2 l.
Proof.
  intros Himp. induction 1 as [|a l Hs IH Hall]; constructor; [exact IH|].
  rewrite List.Forall_forall in Hall |- *. intros y Hy. apply Himp. now apply Hall.
Qed.

Lemma SortVersions_values (h : heap) (versions sorted : list loc) :
  forallb (fun p => (p <? length h)%nat) versions = true ->
  SortVersions versions h = Some (sorted, h) ->
  Permutation versions sorted /\
  StronglySorted (fun a b => leq a b = true) (map (deref h) sorted).
Proof.
  intros Hvalid Hsort.
  assert (Hv : Forall (fun p => (p < length h)%nat) versions).
  { apply List.Forall_forall. intros p Hp.
    rewrite forallb_forall in Hvalid. apply Nat.ltb_lt. now apply Hvalid. }
  destruct (sort_Slice_sorted (lessAt h)
              (fun p q => less (deref h p) (deref h q))
              (fun p => (p < length h)%nat)) with (data := versions)
    as (r & Hr & Hperm & Hsorted).
  - intros p q. apply lessAt_valid.
  - intros p q. apply less_asym.
  - intros p q r Hqp Hrq.
    pose proof (leq_trans (deref h p) (deref h q) (deref h r)) as T.
    unfold leq in T. rewrite Hqp, Hrq in T.
    destruct (less (deref h r) (deref h p)); [now specialize (T eq_refl eq_refl)|].
    reflexivity.
  - exact Hv.
  - unfold SortVersions in Hsort. rewrite Hr in Hsort.
    injection Hsort as <-. split; [exact Hperm|].
    apply StronglySorted_map with (R := fun a b => leq a b = true).
    eapply StronglySorted_mono; [|exact Hsorted].
    intros p q Hpq. cbv beta in Hpq. unfold leq. now rewrite Hpq.
Qed.

(** X12: the order in which the pointers are handed to [SortVersions] does
    not show in the result: two slices that hold the same valid pointers,
    in any order, come out with the same sequence of Versions.  (The
    pointers themselves may come out in different orders where they point
    to equal Versions: the sort is not stable.) *)
Theorem X12_sorted_versions_do_not_depend_on_input_order
  (h : heap) (vs1 vs2 s1 s2 : list loc)
  (Hvalid : forallb (fun p => (p <? length h)%nat) vs1 = true)
  (Hperm : Permutation vs1 vs2)
  (Hsort1 : SortVersions vs1 h = Some (s1, h))
  (Hsort2 : SortVersions vs2 h = Some (s2, h)) :
  map (deref h) s1 = map (deref h) s2.
Proof.
  assert (Hvalid2 : forallb (fun p => (p <? length h)%nat) vs2 = true).
  { rewrite forallb_forall in Hvalid |- *. intros p Hp.
    apply Hvalid. eapply Permutation_in; [symmetry; exact Hperm | exact Hp]. }
  destruct (SortVersions_values h vs1 s1 Hvalid Hsort1) as [P1 S1].
  destruct (SortVersions_values h vs2 s2 Hvalid2 Hsort2) as [P2 S2].
  apply (StronglySorted_unique_strong (fun a b => leq a b = true));
    [|exact S1 | exact S2 |].
  - intros a b _ _. apply leq_antisym.
  - apply Permutation_map. now rewrite <- P1, Hperm, P2.
Qed.

Lemma X12_witness :
  let h := [mkVersion 1 0 0 []; mkVersion 1 0 0 []; mkVersion 0 9 0 []] in
  map (deref h) [2; 0; 1]%nat = map (deref h) [2; 1; 0]%nat.
Proof.
  intros h.
  apply (X12_sorted_versions_do_not_depend_on_input_order h
           [0; 1; 2]%nat [1; 0; 2]%nat [2; 0; 1]%nat [2; 1; 0]%nat).
  - reflexivity.
  - apply perm_swap.
  - vm_compute. reflexivity.
  - vm_compute. reflexivity.
Defined.

Lemma str_lt_proper_prefix s x t : str_lt s (s ++ x :: t) = true.
Proof.
  induction s as [|c s IH]; cbn [app str_lt]; [reflexivity|].
  now rewrite Nat.ltb_irrefl.
Qed.

(** X13: with the same three numbers, a Version whose suffix is a proper
    prefix of another's comes first; in particular the Version without
    suffix comes before every one with a suffix, so [SortVersions] puts a
    release in front of its pre-releases. *)
Theorem X13_shorter_suffix_sorts_first (a b c : Z) (s t : str) (x : ascii) :
  less (mkVersion a b c s) (mkVersion a b c (s ++ x :: t)) = true /\
  less (mkVersion a b c (s ++ x :: t)) (mkVersion a b c s) = false /\
  less (mkVersion a b c []) (mkVersion a b c (x :: t)) = true.
Proof.
  assert (H : forall u, less (mkVersion a b c u) (mkVersion a b c (u ++ x :: t)) = true).
  { intros u. apply less_spec. cbn [major minor patch suffix].
    right. split; [reflexivity|]. right. split; [reflexivity|].
    right. split; [reflexivity|]. apply str_lt_proper_prefix. }
  split; [apply H|]. split; [apply less_asym, H | apply (H [])].
Qed.

(** ** More on the parser's results *)

Lemma parse_error_state s e :
  snd (parse s) = Some e ->
  suffix (fst (parse s)) = [] /\ patch (fst (parse s)) = 0.
Proof.
  unfold parse.
  destruct (scan s) as [[pieces rest]|]; [|cbn; auto].
  destruct pieces as [|d1 ps]; [cbn; auto|].
  destruct (Atoi d1) as [a|]; [|cbn; auto].
  destruct ps as [|d2 ps']; [cbn; discriminate|].
  destruct (Atoi d2) as [b|]; [|cbn; auto].
  destruct ps' as [|d3 ps'']; [cbn; discriminate|].
  destruct (Atoi d3) as [c|]; [cbn; discriminate | cbn; auto].
Qed.

(** X14: a Version that comes back together with an error never carries a
    suffix or a patch number: the suffix is stored last, after every number
    was converted, and the patch number is the last one converted. *)
Theorem X14_error_leaves_suffix_and_patch_unset
  (s : str) (h h' : heap) (p : loc) (e : error) (x : Version)
  (Hparse : NewVersionFromString s h = Some ((p, Some e), h'))
  (Hx : h' !! p = Some x) :
  suffix x = [] /\ patch x = 0.
Proof.
  rewrite NewVersionFromString_parse in Hparse.
  injection Hparse as <- He <-. rewrite lookup_last in Hx. injection Hx as <-.
  eapply parse_error_state, He.
Qed.

Lemma X14_witness :
  let x := mkVersion 1 2 0 [] in suffix x = [] /\ patch x = 0.
Proof.
  intros x.
  apply (X14_error_leaves_suffix_and_patch_unset
           (lit "v1.2.99999999999999999999-rc") [] [x] 0%nat
           (lit "invalid patch version: 99999999999999999999") x).
  - vm_compute. reflexivity.
  - reflexivity.
Defined.

(** The numbers the scanner reads off a formatted Version do not depend
    on its suffix. *)
Lemma scan_format a b c :
  0 <= a -> 0 <= b -> 0 <= c ->
  exists pieces, forall suf,
    scan (format (mkVersion a b c suf)) = Some (pieces, hyphenated suf).
Proof.
  intros Ha Hb Hc.
  pose proof (fmt_d_digitStr a Ha) as Da.
  pose proof (fmt_d_digitStr b Hb) as Db.
  pose proof (fmt_d_digitStr c Hc) as Dc.
  destruct (c =? 0) eqn:Ec; [destruct (b =? 0) eqn:Eb|].
  - exists [fmt_d a]. intros suf. rewrite format_eq. cbn [major minor patch suffix].
    rewrite Eb, Ec. cbn [andb]. apply scan_v, numRun_one, Da.
  - exists [fmt_d a; fmt_d b]. intros suf. rewrite format_eq.
    cbn [major minor patch suffix]. rewrite Eb, Ec. cbn [andb].
    apply scan_v, numRun_two; assumption.
  - exists [fmt_d a; fmt_d b; fmt_d c]. intros suf. rewrite format_eq.
    cbn [major minor patch suffix]. rewrite Ec, andb_false_r.
    apply scan_v, numRun_three; assumption.
Qed.

Lemma parse_same_numbers s1 s2 pieces r1 r2 :
  scan s1 = Some (pieces, r1) -> scan s2 = Some (pieces, r2) ->
  suffixOf r1 = suffixOf r2 -> parse s1 = parse s2.
Proof.
  intros H1 H2 Hsuf. unfold parse. rewrite H1, H2, Hsuf.
  destruct (scan_pieces _ _ _ H1) as [_ Hlen].
  destruct pieces; [simpl in Hlen; lia | reflexivity].
Qed.

(** X15: the hyphen in front of the suffix is optional when the suffix
    starts with a byte that is neither a digit, a dot nor a hyphen: text
    put directly behind the numbers is read as the suffix, so "v1.2rc"
    gives what "v1.2-rc" gives. *)
Theorem X15_hyphen_is_optional
  (a b c : Z) (ch : ascii) (t : str) (h : heap)
  (Ha : 0 <= a) (Hb : 0 <= b) (Hc : 0 <= c)
  (Hdigit : isDigit ch = false)
  (Hdot : is_char "." ch = false)
  (Hhyphen : is_char "-" ch = false) :
  NewVersionFromString (format (mkVersion a b c []) ++ ch :: t) h =
  NewVersionFromString (format (mkVersion a b c (ch :: t))) h.
Proof.
  rewrite !NewVersionFromString_parse.
  destruct (scan_format a b c Ha Hb Hc) as [pieces Hscan].
  rewrite (parse_same_numbers _ (format (mkVersion a b c (ch :: t)))
             pieces (ch :: t) (hyphenated (ch :: t))); [reflexivity | | |].
  - apply (scan_app_other _ ch t pieces [] Hdigit Hdot). apply (Hscan []).
  - apply Hscan.
  - rewrite suffixOf_hyphenated_cut. unfold suffixOf, stripHyphen.
    now rewrite Hhyphen.
Qed.

Lemma X15_witness :
  NewVersionFromString (format (mkVersion 1 2 0 []) ++ "r"%char :: lit "c") [] =
  NewVersionFromString (format (mkVersion 1 2 0 (lit "rc"))) [].
Proof.
  apply (X15_hyphen_is_optional 1 2 0 "r"%char (lit "c") []);
    first [lia | reflexivity].
Defined.
